(** * Verification of the scouting query and evaluation engine

    Shallow embedding of
    - [src/src/nlp/query_processor.py]  (AFLQueryProcessor: lexical filter
      extraction and application of the extracted filters to a DataFrame),
    - [src/src/analysis/ml_models.py]   (AFLPlayerAnalyzer: potential
      prediction guard, team-fit scoring, player rankings),
    - [src/app/models/enhanced_ml_models.py] (PlayerEvaluationModel:
      career projection with the age-factor buckets; TeamAnalysisModel:
      season statistics, recent form, patterns and expectations).

    Python strings are modelled as lists of 8-bit characters read as the
    first 256 Unicode code points (Latin-1); numbers as exact rationals [Q]
    (the floating-point rounding of the source is not modelled). *)

From Stdlib Require Import QArith Qround ZArith Ascii String List Permutation Lia Lqa Sorted.
From stdpp Require Import base list.
Import ListNotations.

(* ------------------------------------------------------------------ *)
(** ** Text primitives (Python [str] operations used by the extractor) *)
(* ------------------------------------------------------------------ *)

Module Text.

Definition text := list ascii.

Definition txt (s : string) : text := list_ascii_of_string s.

Definition code (c : ascii) : nat := nat_of_ascii c.

(** [str.lower] on the Latin-1 range: A-Z and the accented capitals
    U+00C0..U+00DE (without U+00D7) map 32 code points up. *)
Definition lower_char (c : ascii) : ascii :=
  let n := code c in
  if ((65 <=? n) && (n <=? 90)) || ((192 <=? n) && (n <=? 222) && negb (n =? 215))
  then ascii_of_nat (n + 32) else c.

Definition lower (s : text) : text := map lower_char s.

Definition lower_str (s : string) : string :=
  string_of_list_ascii (lower (list_ascii_of_string s)).

(** [re]'s [\d] on this range: the ASCII digits. *)
Definition is_digit (c : ascii) : bool :=
  let n := code c in (48 <=? n) && (n <=? 57).

(** [re]'s [\s] on this range ([str.isspace]): 9-13, 28-32, U+0085, U+00A0. *)
Definition is_space (c : ascii) : bool :=
  let n := code c in
  ((9 <=? n) && (n <=? 13)) || ((28 <=? n) && (n <=? 32)) || (n =? 133) || (n =? 160).

Fixpoint prefixb (k s : text) : bool :=
  match k, s with
  | [], _ => true
  | c :: k', d :: s' => Ascii.eqb c d && prefixb k' s'
  | _ :: _, [] => false
  end.

(** [k in s] *)
Fixpoint contains (s k : text) : bool :=
  prefixb k s || match s with [] => false | _ :: s' => contains s' k end.

(** [s.find(k)]: lowest index of [k] in [s], or -1. *)
Fixpoint find_from (s k : text) (i : Z) : Z :=
  if prefixb k s then i
  else match s with [] => (-1)%Z | _ :: s' => find_from s' k (i + 1) end.

Definition find (s k : text) : Z := find_from s k 0.

(** [int(d)] for a run of ASCII digits. *)
Definition digits_value (d : text) : Z :=
  fold_left (fun acc c => acc * 10 + (Z.of_nat (code c) - 48))%Z d 0%Z.

Fixpoint skip_spaces (s : text) : text :=
  match s with
  | c :: s' => if is_space c then skip_spaces s' else s
  | [] => []
  end.

(** greedy [\d*]: the run of digits at the front and the rest *)
Fixpoint take_digits (s : text) : text * text :=
  match s with
  | c :: s' => if is_digit c then let '(d, r) := take_digits s' in (c :: d, r) else ([], s)
  | [] => ([], [])
  end.

Fixpoint first_some {A B} (f : A -> option B) (l : list A) : option B :=
  match l with
  | [] => None
  | x :: l' => match f x with Some y => Some y | None => first_some f l' end
  end.

End Text.
Import Text.

(* ------------------------------------------------------------------ *)
(** ** The two regular expressions of the extractor                    *)
(* ------------------------------------------------------------------ *)

Module Regex.
Local Open Scope string_scope.

(** [\d{1,2}] (greedy) at the front of [s]: the group and its length. *)
Definition digits12 (s : text) : option (text * nat) :=
  match s with
  | c1 :: s1 =>
      if is_digit c1 then
        match s1 with
        | c2 :: _ => if is_digit c2 then Some ([c1; c2], 2) else Some ([c1], 1)
        | [] => Some ([c1], 1)
        end
      else None
  | [] => None
  end.

(** [\s*(\d{1,2})] at the front of [s]; backtracking into [\s*] cannot
    help, because giving back a blank leaves a blank where [\d] is needed. *)
Definition ws_digits12 (s : text) : option (text * nat) :=
  let r := skip_spaces s in
  match digits12 r with
  | Some (g, k) => Some (g, (length s - length r) + k)
  | None => None
  end.

Definition age_prefixes : list string := ["under"; "over"; "above"; "below"].

(** [(?:under|over|above|below)?\s*(\d{1,2})] anchored at the front of [s]:
    the optional group is greedy, so each alternative is tried in order
    before the empty choice. Result: the captured group and the number of
    characters consumed. *)
Definition age_match_at (s : text) : option (text * nat) :=
  match first_some (fun k =>
          let kt := txt k in
          if prefixb kt s then
            match ws_digits12 (drop (length kt) s) with
            | Some (g, n) => Some (g, length kt + n)
            | None => None
            end
          else None) age_prefixes with
  | Some r => Some r
  | None => ws_digits12 s
  end.

(** [re.findall]: scan left to right; after a match of length [n] the
    next attempt starts [n] characters further ([skip] counts down). *)
Fixpoint age_scan (s : text) (skip : nat) : list text :=
  match s with
  | [] => []
  | _ :: s' =>
      match skip with
      | S k => age_scan s' k
      | O =>
          match age_match_at s with
          | Some (g, n) => g :: age_scan s' (n - 1)
          | None => age_scan s' 0
          end
      end
  end.

Definition age_findall (s : text) : list text := age_scan s 0.

(** None of the optional words of the age pattern occurs in [s]. *)
Definition no_age_word (s : text) : Prop :=
  forall k, In k age_prefixes -> contains s (txt k) = false.

Definition limit_prefixes : list string := ["top"; "best"; "first"].

(** [(?:top|best|first)\s*(\d+)] anchored at the front of [s]. *)
Definition limit_match_at (s : text) : option text :=
  first_some (fun k =>
    let kt := txt k in
    if prefixb kt s then
      match take_digits (skip_spaces (drop (length kt) s)) with
      | ([], _) => None
      | (d, _) => Some d
      end
    else None) limit_prefixes.

(** [re.search]: the leftmost position where the pattern matches. *)
Fixpoint limit_search (s : text) : option text :=
  match limit_match_at s with
  | Some d => Some d
  | None => match s with [] => None | _ :: s' => limit_search s' end
  end.

End Regex.
Import Regex.

(* ------------------------------------------------------------------ *)
(** ** Lexical filter extractor ([AFLQueryProcessor])                  *)
(* ------------------------------------------------------------------ *)

(** The extracted filters (the [filters] dict of [process_query]); the
    same record is the input of [apply_filters_to_dataframe]. A Python
    dict with string values is an association list in insertion order. *)
Record filters := mkFilters {
  f_positions : list string;
  f_teams : list string;
  f_leagues : list string;
  f_stats : list string;
  f_age_range : option Z * option Z;
  f_comparisons : list (string * string);
  f_sort_by : option string;
  f_limit : option Z
}.

Record query_result := mkQueryResult {
  r_original_query : text;
  r_query_type : string;
  r_filters : filters;
  r_confidence : Q
}.

(** [d[k] = v] on a dict: update in place, or append a new key. *)
Fixpoint dict_set (d : list (string * string)) (k v : string) : list (string * string) :=
  match d with
  | [] => [(k, v)]
  | (k', v') :: d' =>
      if String.eqb k k' then (k, v) :: d' else (k', v') :: dict_set d' k v
  end.

Module Extractor.
Local Open Scope string_scope.

Definition position_keywords : list (string * list string) := [
  ("defender", ["defender"; "defence"; "back"; "backman"; "fullback"; "halfback"]);
  ("midfielder", ["midfielder"; "midfield"; "mid"; "centre"; "wing"; "winger"]);
  ("forward", ["forward"; "forwards"; "key forward"; "small forward"; "fullforward"]);
  ("ruck", ["ruck"; "ruckman"; "big man"])].

Definition stat_keywords : list (string * list string) := [
  ("disposals", ["disposal"; "disposals"; "possession"; "possessions"; "touch"; "touches"]);
  ("marks", ["mark"; "marks"; "marking"; "catch"; "catches"]);
  ("tackles", ["tackle"; "tackles"; "tackling"; "pressure"]);
  ("goals", ["goal"; "goals"; "scoring"; "kicking goals"]);
  ("contested_possessions", ["contested"; "contested possession"; "hard ball"; "contest"]);
  ("clearances", ["clearance"; "clearances"; "clearing"]);
  ("goal_accuracy", ["accuracy"; "goal accuracy"; "kicking accuracy"; "accurate"]);
  ("kicks", ["kick"; "kicks"; "kicking"]);
  ("handballs", ["handball"; "handballs"; "handpass"])].

Definition team_keywords : list (string * list string) := [
  ("adelaide", ["adelaide"; "crows"]);
  ("brisbane", ["brisbane"; "lions"]);
  ("carlton", ["carlton"; "blues"]);
  ("collingwood", ["collingwood"; "magpies"; "pies"]);
  ("essendon", ["essendon"; "bombers"]);
  ("fremantle", ["fremantle"; "dockers"; "freo"]);
  ("geelong", ["geelong"; "cats"]);
  ("gold_coast", ["gold coast"; "suns"]);
  ("gws", ["gws"; "giants"; "greater western sydney"]);
  ("hawthorn", ["hawthorn"; "hawks"]);
  ("melbourne", ["melbourne"; "demons"; "dees"]);
  ("north_melbourne", ["north melbourne"; "kangaroos"; "roos"]);
  ("port_adelaide", ["port adelaide"; "power"; "port"]);
  ("richmond", ["richmond"; "tigers"]);
  ("st_kilda", ["st kilda"; "saints"]);
  ("sydney", ["sydney"; "swans"]);
  ("west_coast", ["west coast"; "eagles"]);
  ("western_bulldogs", ["western bulldogs"; "bulldogs"; "dogs"])].

Definition league_keywords : list (string * list string) := [
  ("afl", ["afl"; "australian football league"]);
  ("vfl", ["vfl"; "victorian football league"]);
  ("sanfl", ["sanfl"; "south australian national football league"]);
  ("wafl", ["wafl"; "west australian football league"]);
  ("neafl", ["neafl"; "north east australian football league"])].

Definition comparison_keywords : list (string * list string) := [
  ("high", ["high"; "top"; "best"; "excellent"; "great"; "good"; "above"]);
  ("low", ["low"; "bottom"; "worst"; "poor"; "below"]);
  ("medium", ["medium"; "average"; "moderate"])].

Definition young_keywords : list string := ["young"; "youth"; "junior"; "under"].
Definition experienced_keywords : list string := ["experienced"; "veteran"; "old"; "senior"; "over"].

(** [keyword in query] *)
Definition has (q : text) (k : string) : bool := contains q (txt k).

(** [_extract_positions], [_extract_teams], [_extract_leagues],
    [_extract_stats]: every key one of whose keywords occurs (the inner
    loop breaks at the first). The source returns [list(set(...))], a
    permutation of this list in an unspecified order. *)
Definition extract_keyed (table : list (string * list string)) (q : text) : list string :=
  map fst (List.filter (fun e => existsb (has q) (snd e)) table).

Definition extract_positions := extract_keyed position_keywords.
Definition extract_teams := extract_keyed team_keywords.
Definition extract_leagues := extract_keyed league_keywords.
Definition extract_stats := extract_keyed stat_keywords.

(** [_extract_age_range] *)
Definition age_step (q : text) (acc : option Z * option Z) (m : text) : option Z * option Z :=
  let age := digits_value m in
  let '(min_age, max_age) := acc in
  if has q "under" || has q "below" then (min_age, Some age)
  else if has q "over" || has q "above" then (Some age, max_age)
  else match min_age with
       | None => (Some age, max_age)
       | Some _ => (min_age, Some age)
       end.

Definition extract_age_range (q : text) : option Z * option Z :=
  let '(min_age, max_age) := fold_left (age_step q) (age_findall q) (None, None) in
  let max_age :=
    if existsb (has q) young_keywords then
      match max_age with None => Some 23%Z | Some _ => max_age end
    else max_age in
  let min_age :=
    if existsb (has q) experienced_keywords then
      match min_age with None => Some 28%Z | Some _ => min_age end
    else min_age in
  (min_age, max_age).

(** [abs(query.find(keyword) - query.find(comp_keyword)) < 50] *)
Definition near (q : text) (kw ck : string) : bool :=
  (Z.abs (find q (txt kw) - find q (txt ck)) <? 50)%Z.

(** [_extract_comparisons]: the four nested loops; the innermost one
    breaks after its first assignment. *)
Definition comp_type_step (q : text) (stat kw : string)
    (d : list (string * string)) (ct : string * list string) : list (string * string) :=
  if existsb (fun ck => has q ck && near q kw ck) (snd ct)
  then dict_set d stat (fst ct) else d.

Definition keyword_step (q : text) (stat : string)
    (d : list (string * string)) (kw : string) : list (string * string) :=
  if has q kw then fold_left (comp_type_step q stat kw) comparison_keywords d else d.

Definition stat_step (q : text) (d : list (string * string))
    (e : string * list string) : list (string * string) :=
  fold_left (keyword_step q (fst e)) (snd e) d.

Definition extract_comparisons (q : text) : list (string * string) :=
  fold_left (stat_step q) stat_keywords [].

Definition sort_keywords : list string := ["best"; "top"; "highest"; "most"; "leading"].

(** [_extract_sort_criteria] *)
Definition extract_sort_criteria (q : text) : option string :=
  first_some (fun k =>
    if has q k then
      first_some (fun e => if existsb (has q) (snd e) then Some (fst e) else None) stat_keywords
    else None) sort_keywords.

(** [_extract_limit] *)
Definition extract_limit (q : text) : option Z :=
  match limit_search q with
  | Some d => Some (digits_value d)
  | None => if existsb (has q) ["top"; "best"; "leading"] then Some 10%Z else None
  end.

(** [_determine_query_type] *)
Definition determine_query_type (q : text) : string :=
  if existsb (has q) ["find"; "show"; "list"; "get"] then "search"
  else if existsb (has q) ["compare"; "vs"; "versus"] then "comparison"
  else if existsb (has q) ["analyze"; "analysis"; "breakdown"] then "analysis"
  else if existsb (has q) ["rank"; "ranking"; "top"; "best"] then "ranking"
  else if existsb (has q) ["predict"; "forecast"; "potential"] then "prediction"
  else "search".

(** Python truthiness of the values of the filters dict, as tested by
    [_calculate_confidence]: a list or dict is true when non-empty, the
    age tuple when [any] of its two entries is true ([None] and [0] are
    false), [sort_by] when it is a non-empty string. *)
Definition truthy_list {A} (l : list A) : bool := match l with [] => false | _ => true end.
Definition truthy_optZ (o : option Z) : bool :=
  match o with None => false | Some z => negb (z =? 0)%Z end.
Definition truthy_optstr (o : option string) : bool :=
  match o with None => false | Some s => negb (String.eqb s "") end.

Definition field_truthy (f : filters) (name : string) : bool :=
  if String.eqb name "positions" then truthy_list (f_positions f)
  else if String.eqb name "teams" then truthy_list (f_teams f)
  else if String.eqb name "leagues" then truthy_list (f_leagues f)
  else if String.eqb name "stats" then truthy_list (f_stats f)
  else if String.eqb name "age_range" then
    truthy_optZ (fst (f_age_range f)) || truthy_optZ (snd (f_age_range f))
  else if String.eqb name "comparisons" then truthy_list (f_comparisons f)
  else if String.eqb name "sort_by" then truthy_optstr (f_sort_by f)
  else if String.eqb name "limit" then truthy_optZ (f_limit f)
  else false.

Definition weights : list (string * Q) := [
  ("positions", 1#5); ("teams", 3#20); ("leagues", 1#10); ("stats", 3#10);
  ("age_range", 1#10); ("comparisons", 1#10); ("sort_by", 1#20)].

(** [_calculate_confidence] *)
Definition calculate_confidence (f : filters) : Q :=
  let '(confidence, total_weight) :=
    fold_left (fun '(c, t) '(name, w) =>
                 (if field_truthy f name then c + w else c, t + w)%Q)
              weights (0, 0)%Q in
  if Qlt_le_dec 0 total_weight then (confidence / total_weight)%Q else 0%Q.

Definition extract_filters (ql : text) : filters :=
  {| f_positions := extract_positions ql;
     f_teams := extract_teams ql;
     f_leagues := extract_leagues ql;
     f_stats := extract_stats ql;
     f_age_range := extract_age_range ql;
     f_comparisons := extract_comparisons ql;
     f_sort_by := extract_sort_criteria ql;
     f_limit := extract_limit ql |}.

(** [process_query]. The tokens of [word_tokenize] are passed to
    [_extract_comparisons] but never used there, so they are not modelled. *)
Definition process_query (query : text) : query_result :=
  let ql := lower query in
  let f := extract_filters ql in
  {| r_original_query := query;
     r_query_type := determine_query_type ql;
     r_filters := f;
     r_confidence := calculate_confidence f |}.

End Extractor.
Import Extractor.

(* ------------------------------------------------------------------ *)
(** ** DataFrames and [apply_filters_to_dataframe]                     *)
(* ------------------------------------------------------------------ *)

Module Frame.
Local Open Scope string_scope.

(** A cell of an object-typed column: a number, a string or NaN/None. *)
Inductive cell := CNum (x : Q) | CStr (s : string) | CNa.

(** A row: its index label and its cells by column name. *)
Record row := mkRow { row_id : nat; row_cell : string -> cell }.

Record frame := mkFrame { cols : list string; rows : list row }.

Definition has_col (cs : list string) (c : string) : bool := existsb (String.eqb c) cs.

Definition is_na (c : cell) : bool := match c with CNa => true | _ => false end.
Definition is_num (c : cell) : bool := match c with CNum _ => true | _ => false end.
Definition is_str (c : cell) : bool := match c with CStr _ => true | _ => false end.

Definition Qltb (a b : Q) : bool := negb (Qle_bool b a).

(** Stable insertion sort, greatest first: [x] goes before the first
    element it is strictly greater than, so ties keep their order. *)
Fixpoint ins_desc {A} (gt : A -> A -> bool) (x : A) (l : list A) : list A :=
  match l with
  | [] => [x]
  | y :: l' => if gt x y then x :: y :: l' else y :: ins_desc gt x l'
  end.

Definition sort_desc {A} (gt : A -> A -> bool) (l : list A) : list A :=
  fold_left (fun acc x => ins_desc gt x acc) l [].

Fixpoint ins_asc (x : Q) (l : list Q) : list Q :=
  match l with
  | [] => [x]
  | y :: l' => if Qle_bool x y then x :: y :: l' else y :: ins_asc x l'
  end.

Definition sort_asc (l : list Q) : list Q := fold_right ins_asc [] l.

(** [Series.quantile(p)] with numpy's default linear interpolation over
    the non-NaN values; [None] is the NaN of an empty series. *)
Definition quantile_lin (xs : list Q) (p : Q) : option Q :=
  let s := sort_asc xs in
  match s with
  | [] => None
  | x0 :: _ =>
      let h := (inject_Z (Z.of_nat (length s - 1)) * p)%Q in
      let lo := Qfloor h in
      let frac := (h - inject_Z lo)%Q in
      match nth_error s (Z.to_nat lo), nth_error s (S (Z.to_nat lo)) with
      | Some a, Some b => Some (a + frac * (b - a))%Q
      | Some a, None => Some a
      | None, _ => Some x0
      end
  end.

Definition col_values (col : string) (rs : list row) : list Q :=
  flat_map (fun r => match row_cell r col with CNum x => [x] | _ => [] end) rs.

(** [quantile] raises (TypeError) on a column holding strings. *)
Definition quantile (col : string) (rs : list row) (p : Q) : option (option Q) :=
  if existsb (fun r => is_str (row_cell r col)) rs then None
  else Some (quantile_lin (col_values col rs) p).

(** [df[df[col] OP value]]: NaN compares false; a string cell makes the
    comparison with a number raise (TypeError). *)
Definition num_mask (col : string) (keep : Q -> bool) (rs : list row) : option (list row) :=
  if existsb (fun r => is_str (row_cell r col)) rs then None
  else Some (List.filter (fun r => match row_cell r col with CNum x => keep x | _ => false end) rs).

Definition thr_ge (t : option Q) (v : Q) : bool :=
  match t with Some t => Qle_bool t v | None => false end.
Definition thr_le (t : option Q) (v : Q) : bool :=
  match t with Some t => Qle_bool v t | None => false end.

(** [sort_values(col, ascending=False)]: NaN rows last in their order; the
    other rows greatest first; numbers and strings mixed in one column make
    the sort raise (TypeError). The model keeps ties in their original
    order; pandas' default [kind='quicksort'] is not stable and may order
    tied rows otherwise, so a property that depends on the order of ties
    holds of the code only when the sort keys are distinct
    ([sort_keys_distinct] below). *)
Definition num_key (col : string) (r : row) : Q :=
  match row_cell r col with CNum x => x | _ => 0%Q end.
Definition str_key (col : string) (r : row) : string :=
  match row_cell r col with CStr s => s | _ => "" end.

Definition sort_values_desc (col : string) (rs : list row) : option (list row) :=
  let non_na := List.filter (fun r => negb (is_na (row_cell r col))) rs in
  let nas := List.filter (fun r => is_na (row_cell r col)) rs in
  let any_num := existsb (fun r => is_num (row_cell r col)) non_na in
  let any_str := existsb (fun r => is_str (row_cell r col)) non_na in
  if any_num && any_str then None
  else if any_str
  then Some (app (sort_desc (fun a b => String.ltb (str_key col b) (str_key col a)) non_na) nas)
  else Some (app (sort_desc (fun a b => Qltb (num_key col b) (num_key col a)) non_na) nas).

(** [df.head(n)] is [df.iloc[:n]]: a negative [n] drops the last [-n] rows. *)
Definition head_n (n : Z) (rs : list row) : list row :=
  if (0 <=? n)%Z then take (Z.to_nat n) rs else take (length rs - Z.to_nat (- n)) rs.

Fixpoint fold_opt {A B} (f : A -> B -> option A) (l : list B) (a : A) : option A :=
  match l with
  | [] => Some a
  | x :: l' => match f a x with Some a' => fold_opt f l' a' | None => None end
  end.

(** Whether step (5) sorts: [filters['sort_by'] and filters['sort_by'] in columns]. *)
Definition sort_applies (cs : list string) (f : filters) : bool :=
  match f_sort_by f with
  | Some s => truthy_optstr (Some s) && has_col cs s
  | None => false
  end.

(** A comparison step (4) leaves the rows as they are: its column is
    absent or its bucket is none of high, low and medium. *)
Definition comparison_inert (cs : list string) (sc : string * string) : bool :=
  negb (has_col cs (fst sc)) || negb (existsb (String.eqb (snd sc)) ["high"; "low"; "medium"]%string).

(** The [.str] accessor infers the type of the values present: a column
    holding strings, or only missing values, is accepted, one whose values
    are numbers makes it raise (AttributeError). The cells do not record
    the column's dtype, so a float column holding only NaN, which pandas
    also refuses, is accepted here. *)
Definition str_accessor_ok (col : string) (rs : list row) : bool :=
  existsb (fun r => is_str (row_cell r col)) rs || negb (existsb (fun r => is_num (row_cell r col)) rs).

Section Engine.

(** [re.compile(pat, re.IGNORECASE)] as used by [str.contains(pat,
    case=False)]: [None] when the pattern does not compile, else the
    search predicate. *)
Variable team_regex : string -> option (string -> bool).

(** Step (1): [df['Position'].str.lower().isin(...)]; a cell that is not
    a string lowers to NaN and is not kept. *)
Definition position_step (cs : list string) (f : filters) (rs : list row) : option (list row) :=
  if truthy_list (f_positions f) && has_col cs "Position" then
    if str_accessor_ok "Position" rs then
      let wanted := map lower_str (f_positions f) in
      Some (List.filter (fun r => match row_cell r "Position" with
                                  | CStr s => existsb (String.eqb (lower_str s)) wanted
                                  | _ => false end) rs)
    else None
  else Some rs.

(** Step (2): [df['Team'].str.lower().str.contains('|'.join(teams),
    case=False, na=False)]; a cell that is not a string is not kept. *)
Definition team_step (cs : list string) (f : filters) (rs : list row) : option (list row) :=
  if truthy_list (f_teams f) && has_col cs "Team" then
    if str_accessor_ok "Team" rs then
      match team_regex (String.concat "|" (f_teams f)) with
      | None => None
      | Some search =>
          Some (List.filter (fun r => match row_cell r "Team" with
                                      | CStr s => search (lower_str s)
                                      | _ => false end) rs)
      end
    else None
  else Some rs.

Definition age_step (cs : list string) (f : filters) (rs : list row) : option (list row) :=
  let '(min_age, max_age) := f_age_range f in
  if has_col cs "Age" then
    rs1 ← match min_age with
          | Some m => num_mask "Age" (fun a => Qle_bool (inject_Z m) a) rs
          | None => Some rs end;
    match max_age with
    | Some m => num_mask "Age" (fun a => Qle_bool a (inject_Z m)) rs1
    | None => Some rs1
    end
  else Some rs.

Definition comparison_step (cs : list string) (rs : list row) (sc : string * string) : option (list row) :=
  let '(stat, comparison) := sc in
  if has_col cs stat then
    if String.eqb comparison "high" then
      threshold ← quantile stat rs (3#4);
      num_mask stat (thr_ge threshold) rs
    else if String.eqb comparison "low" then
      threshold ← quantile stat rs (1#4);
      num_mask stat (thr_le threshold) rs
    else if String.eqb comparison "medium" then
      q25 ← quantile stat rs (1#4);
      q75 ← quantile stat rs (3#4);
      num_mask stat (fun v => thr_ge q25 v && thr_le q75 v) rs
    else Some rs
  else Some rs.

Definition sort_step (cs : list string) (f : filters) (rs : list row) : option (list row) :=
  match f_sort_by f with
  | Some s => if truthy_optstr (Some s) && has_col cs s then sort_values_desc s rs else Some rs
  | None => Some rs
  end.

(** [if filters['limit']: filtered_df = filtered_df.head(filters['limit'])] *)
Definition limit_step (f : filters) (rs : list row) : list row :=
  match f_limit f with
  | Some n => if truthy_optZ (Some n) then head_n n rs else rs
  | None => rs
  end.

(** Steps (1)-(5); [None] is an exception raised inside the [try]. *)
Definition filter_and_sort (d : frame) (f : filters) : option (list row) :=
  let cs := cols d in
  rs1 ← position_step cs f (rows d);
  rs2 ← team_step cs f rs1;
  rs3 ← age_step cs f rs2;
  rs4 ← fold_opt (comparison_step cs) (f_comparisons f) rs3;
  sort_step cs f rs4.

(** [apply_filters_to_dataframe]: on an exception the input is returned. *)
Definition apply_filters_to_dataframe (d : frame) (f : filters) : frame :=
  match filter_and_sort d f with
  | Some rs => mkFrame (cols d) (limit_step f rs)
  | None => d
  end.

End Engine.

End Frame.
Import Frame.

(* ------------------------------------------------------------------ *)
(** ** [AFLPlayerAnalyzer] ([src/src/analysis/ml_models.py])           *)
(* ------------------------------------------------------------------ *)

Module Analyzer.
Local Open Scope string_scope.

(** The fitted objects are opaque functions; [None] from one of them is
    an exception raised inside it. *)
Record analyzer := mkAnalyzer {
  performance_model : option (list (list Q) -> option (list Q));
  scaler_transform : list (list Q) -> option (list (list Q))
}.

Definition key_features : list string :=
  ["Disposals"; "Marks"; "Tackles"; "Goals"; "Behinds"; "Kicks"; "Handballs";
   "Contested Possessions"; "Uncontested Possessions"; "Mark_Disposal_Ratio";
   "Contested_Rate"; "Goal_Accuracy"; "Tackle_Efficiency"].
Definition physical_features : list string := ["Age"; "Height"; "Weight"].

(** [prepare_features(df)]: the available feature columns with NaN as 0;
    [None] when no feature column exists (ValueError) or a cell holds a
    string (the scaler then rejects the matrix). *)
Definition prepare_features (d : frame) : option (list (list Q)) :=
  let feats := List.filter (has_col (cols d)) (key_features ++ physical_features)%list in
  match feats with
  | [] => None
  | _ =>
      if existsb (fun r => existsb (fun c => is_str (row_cell r c)) feats) (rows d) then None
      else Some (map (fun r => map (fun c => match row_cell r c with CNum x => x | _ => 0%Q end) feats) (rows d))
  end.

(** [np.where(ages < 26, 1.2 - 0.02 * (26 - ages), 1.0 - 0.03 * (ages - 26))] *)
Definition development_factor (age : Q) : Q :=
  if Qlt_le_dec age 26 then ((6#5) - (1#50) * (26 - age))%Q else (1 - (3#100) * (age - 26))%Q.

Definition extend_row (r : row) (perf pot fac : Q) : row :=
  mkRow (row_id r) (fun c =>
    if String.eqb c "Predicted_Performance" then CNum perf
    else if String.eqb c "Potential_Rating" then CNum pot
    else if String.eqb c "Development_Factor" then CNum fac
    else row_cell r c).

Fixpoint zip_rows (rs : list row) (perf : list Q) : option (list row) :=
  match rs, perf with
  | [], [] => Some []
  | r :: rs', p :: perf' =>
      let age := match row_cell r "Age" with CNum a => a | _ => 25%Q end in
      let fac := development_factor age in
      match zip_rows rs' perf' with
      | Some tl => Some (extend_row r p (p * fac)%Q fac :: tl)
      | None => None
      end
  | _, _ => None
  end.

(** [df_result[c] = values]: a column already present is overwritten in
    place, a new one is appended after the others. *)
Definition set_col (cs : list string) (c : string) : list string :=
  if has_col cs c then cs else (cs ++ [c])%list.

(** [predict_player_potential]: without a trained performance model the
    error is logged and the input DataFrame is returned; every exception
    of the computation also returns the input. *)
Definition predict_player_potential (a : analyzer) (d : frame) : frame :=
  match performance_model a with
  | None => d
  | Some model =>
      match prepare_features d with
      | None => d
      | Some X =>
          match scaler_transform a X with
          | None => d
          | Some Xs =>
              match model Xs with
              | None => d
              | Some perf =>
                  if has_col (cols d) "Age" then
                    match zip_rows (rows d) perf with
                    | Some rs' =>
                        mkFrame (set_col (set_col (set_col (cols d) "Predicted_Performance")
                                   "Potential_Rating") "Development_Factor") rs'
                    | None => d
                    end
                  else d
              end
          end
      end
  end.

Definition team_requirements : list (string * list (string * Q)) := [
  ("possession_based", [("Uncontested Possessions", 3#10); ("Mark_Disposal_Ratio", 1#5); ("Contested_Rate", -1#10)]);
  ("pressure_based", [("Tackles", 2#5); ("Contested Possessions", 3#10); ("Tackle_Efficiency", 3#10)]);
  ("attacking", [("Goals", 2#5); ("Goal_Accuracy", 3#10); ("Forward_Pressure", 3#10)]);
  ("defensive", [("Tackles", 3#10); ("Contested_Rate", 3#10); ("Mark_Disposal_Ratio", 1#5)])].

Fixpoint lookup_str {V} (k : string) (l : list (string * V)) : option V :=
  match l with
  | [] => None
  | (k', v) :: l' => if String.eqb k k' then Some v else lookup_str k l'
  end.

(** [player_df[stat].max()] skips NaN; an all-NaN column gives NaN, and
    [NaN > 0] is false, so the divisor falls back to 1. *)
Definition col_max (col : string) (rs : list row) : option Q :=
  fold_left (fun m r => match row_cell r col, m with
                        | CNum x, None => Some x
                        | CNum x, Some y => Some (if Qle_bool y x then x else y)
                        | _, _ => m end) rs None.

Definition divisor (col : string) (rs : list row) : Q :=
  match col_max col rs with
  | Some m => if Qlt_le_dec 0 m then m else 1%Q
  | None => 1%Q
  end.

(** Python's [max(0, score)]. *)
Definition clamp0 (s : Q) : Q := if Qlt_le_dec 0 s then s else 0%Q.

Definition raw_fit (cs : list string) (all : list row) (reqs : list (string * Q)) (r : row) : Q :=
  fold_left (fun score '(stat, weight) =>
               if has_col cs stat then
                 let stat_value := match row_cell r stat with CNum x => x | _ => 0%Q end in
                 (score + weight * (stat_value / divisor stat all))%Q
               else score) reqs 0%Q.

Inductive fit_outcome :=
  | FitUnscored (d : frame)               (* unknown style: input returned *)
  | FitScored (scored : list (row * Q))   (* rows with their fit score, best first *)
  | FitRaises.                            (* a string cell: the comparison raises *)

(** [evaluate_team_fit] *)
Definition evaluate_team_fit (d : frame) (team_style : string) : fit_outcome :=
  match lookup_str team_style team_requirements with
  | None => FitUnscored d
  | Some reqs =>
      if existsb (fun '(stat, _) => has_col (cols d) stat &&
                   existsb (fun r => is_str (row_cell r stat)) (rows d)) reqs
      then FitRaises
      else
        let fit_scores := map (fun r => (r, clamp0 (raw_fit (cols d) (rows d) reqs r))) (rows d) in
        FitScored (sort_desc (fun a b => Qltb (snd b) (snd a)) fit_scores)
  end.

(** [df_filtered['Position'] == position]: true on a string cell equal to
    [position]; NaN and numbers compare unequal. *)
Definition position_eq (position : string) (r : row) : bool :=
  match row_cell r "Position" with CStr s => String.eqb s position | _ => false end.

(** [get_player_rankings(df, position, metric, top_n)]; [None] for
    [position] is its default. The method has no [try]: the TypeError of
    a sort over a column mixing numbers and strings escapes ([None]). *)
Definition get_player_rankings (d : frame) (position : option string) (metric : string) (top_n : Z)
    : option frame :=
  let df_filtered :=
    match position with
    | Some p => if truthy_optstr (Some p) && has_col (cols d) "Position"
                then List.filter (position_eq p) (rows d) else rows d
    | None => rows d
    end in
  df_sorted ← (if has_col (cols d) metric then sort_values_desc metric df_filtered else Some df_filtered);
  Some (mkFrame (cols d) (head_n top_n df_sorted)).

End Analyzer.
Import Analyzer.

(* ------------------------------------------------------------------ *)
(** ** [PlayerEvaluationModel] ([src/app/models/enhanced_ml_models.py]) *)
(* ------------------------------------------------------------------ *)

Module Evaluation.
Local Open Scope string_scope.

(** A one-row DataFrame as its columns in order; [None] is NaN. *)
Definition feature_vec := list (string * option Q).

(** Outcome of code run inside the [try]: a value, or an exception. *)
Inductive outcome (A : Type) := Ret (a : A) | Raise (msg : string).
Arguments Ret {A} a.
Arguments Raise {A} msg.

Definition obind {A B} (m : outcome A) (k : A -> outcome B) : outcome B :=
  match m with Ret a => k a | Raise e => Raise e end.

Notation "'let!' x := m 'in' k" := (obind m (fun x => k))
  (at level 200, x name, m at level 100, k at level 200).

(** [d[k]]: a missing key raises [KeyError], whose text is the quoted key. *)
Definition get_key {V} (k : string) (d : list (string * V)) : outcome V :=
  match lookup_str k d with Some v => Ret v | None => Raise ("'" ++ k ++ "'") end.

Fixpoint aset {V} (d : list (string * V)) (k : string) (v : V) : list (string * V) :=
  match d with
  | [] => [(k, v)]
  | (k', v') :: d' => if String.eqb k k' then (k, v) :: d' else (k', v') :: aset d' k v
  end.

Definition scaler := feature_vec -> option (list (option Q)).
Definition model := list (option Q) -> option Q.

Record eval_state := mkEvalState {
  models : list (string * model);
  scalers : list (string * scaler);
  feature_columns : list string;
  is_trained : bool
}.

(** What [_load_models] finds in the [models] directory. *)
Record disk_models := mkDiskModels {
  dm_models : list (string * model);
  dm_scalers : list (string * scaler);
  dm_feature_columns : option (list string)
}.

(** [_load_models]; [None] for the directory is [os.listdir] raising,
    which is caught and leaves [is_trained] false. *)
Definition load_models (st : eval_state) (disk : option disk_models) : eval_state :=
  match disk with
  | None => mkEvalState (models st) (scalers st) (feature_columns st) false
  | Some dm =>
      mkEvalState
        (fold_left (fun m '(k, v) => aset m k v) (dm_models dm) (models st))
        (fold_left (fun m '(k, v) => aset m k v) (dm_scalers dm) (scalers st))
        (match dm_feature_columns dm with Some fc => fc | None => feature_columns st end)
        true
  end.

(** [_calculate_age_factor]; a NaN age fails every comparison. *)
Definition calculate_age_factor (age : option Q) : Q :=
  match age with
  | None => 9#10
  | Some a =>
      if Qlt_le_dec a 20 then 11#10
      else if Qlt_le_dec a 25 then 21#20
      else if Qlt_le_dec a 30 then 1
      else if Qlt_le_dec a 33 then 19#20
      else 9#10
  end.

(** [_determine_career_stage] *)
Definition determine_career_stage (age : option Q) : string :=
  match age with
  | None => "Veteran"
  | Some a =>
      if Qlt_le_dec a 22 then "Developing"
      else if Qlt_le_dec a 26 then "Emerging"
      else if Qlt_le_dec a 30 then "Peak"
      else if Qlt_le_dec a 33 then "Experienced"
      else "Veteran"
  end.

Record perf_row := mkPerfRow { pr_year : Z; pr_fields : feature_vec }.

Fixpoint unique_years (seen : list Z) (l : list perf_row) : list Z :=
  match l with
  | [] => rev seen
  | r :: l' => if existsb (Z.eqb (pr_year r)) seen then unique_years seen l'
               else unique_years (pr_year r :: seen) l'
  end.

(** [_assess_injury_risk]: mean games over the last (up to) 3 seasons. *)
Definition assess_injury_risk (player_data : list perf_row) : string :=
  let ys := unique_years [] player_data in
  let recent := if (3 <=? length ys)%nat then drop (length ys - 3) ys else ys in
  let games := map (fun y => length (List.filter (fun r => Z.eqb (pr_year r) y) player_data)) recent in
  let avg := (inject_Z (Z.of_nat (list_sum games)) / inject_Z (Z.of_nat (length games)))%Q in
  if Qle_bool 20 avg then "Low" else if Qle_bool 15 avg then "Moderate" else "High".

(** [proj_features[col] = value]: overwrite the column, or append it. *)
Definition set_col (fv : feature_vec) (c : string) (v : option Q) : feature_vec :=
  if existsb (fun e => String.eqb (fst e) c) fv
  then map (fun e => if String.eqb (fst e) c then (c, v) else e) fv
  else (fv ++ [(c, v)])%list.

Definition opt_add (a : option Q) (b : Q) : option Q :=
  match a with Some x => Some (x + b)%Q | None => None end.

Definition is_trend_col (c : string) : bool := contains (txt c) (txt "trend").

(** [for col in trend_cols: proj_features[col] *= age_factor] *)
Definition scale_trends (fv : feature_vec) (factor : Q) : feature_vec :=
  fold_left (fun acc col =>
               map (fun e => if String.eqb (fst e) col
                             then (fst e, option_map (fun x => (x * factor)%Q) (snd e)) else e) acc)
            (List.filter is_trend_col (map fst fv)) fv.

(** The projection features of offset [year] (the body of the loop up to
    the [transform] call). *)
Definition projection_features (X_current : feature_vec) (current_age current_games : option Q)
    (seasons : option Q) (year : Z) : feature_vec :=
  let projected_age := opt_add current_age (inject_Z year) in
  let projected_games := opt_add current_games (inject_Z (22 * year)) in
  let proj := set_col X_current "age" projected_age in
  let proj := set_col proj "career_games" projected_games in
  let proj := set_col proj "seasons_played" (opt_add seasons (inject_Z year)) in
  scale_trends proj (calculate_age_factor projected_age).

Record projection := mkProjection {
  p_year : Z; p_age : option Q; p_impact : Q; p_games : option Q
}.

Inductive potential :=
  | Potential (current_impact : Q) (current_age : option Q) (career_stage : string)
      (projections : list projection) (peak : projection) (injury_risk : string)
      (development_areas : list string)
  | PotentialError (msg : string).

Definition transform (sc : scaler) (fv : feature_vec) : outcome (list (option Q)) :=
  match sc fv with Some xs => Ret xs | None => Raise "transform" end.

Definition predict (m : model) (xs : list (option Q)) : outcome Q :=
  match m xs with Some y => Ret y | None => Raise "predict" end.

(** [models['player_value'].predict(scalers['player_value'].transform(fv))[0]] *)
Definition score (sc : scaler) (m : model) (fv : feature_vec) : outcome Q :=
  let! xs := transform sc fv in predict m xs.

(** [max(projections, key=...)]: the first maximal entry; [max] of an
    empty list raises. *)
Definition peak_of (ps : list projection) : outcome projection :=
  match ps with
  | [] => Raise "max() arg is an empty sequence"
  | p :: ps' => Ret (fold_left (fun best p => if Qltb (p_impact best) (p_impact p) then p else best) ps' p)
  end.

Fixpoint map_outcome {A B} (f : A -> outcome B) (l : list A) : outcome (list B) :=
  match l with
  | [] => Ret []
  | x :: l' => let! y := f x in let! ys := map_outcome f l' in Ret (y :: ys)
  end.

Section Projection.

(** [prepare_features] (rolling means, trends, efficiency ratios) and
    [_identify_development_areas] enter no claim about projection and are
    taken as given functions of the player's rows. *)
Variable prepare_features : list perf_row -> list feature_vec.
Variable identify_development_areas : list feature_vec -> list string.

Definition select_features (fc : list string) (recent : feature_vec) : outcome feature_vec :=
  map_outcome (fun c => let! v := get_key c recent in
                        Ret (c, Some (match v with Some x => x | None => 0%Q end))) fc.

(** [predict_player_potential(player_id, projection_years)], with the rows
    the database query returns for the player as [player_data]. *)
Definition predict_player_potential (st : eval_state) (disk : option disk_models)
    (player_data : list perf_row) (projection_years : Z) : eval_state * potential :=
  let st := if is_trained st then st else load_models st disk in
  let body : outcome potential :=
    match player_data with
    | [] => Ret (PotentialError "No data found for player")
    | _ =>
      let features_df := prepare_features player_data in
      match last features_df with
      | None => Ret (PotentialError "Unable to prepare features")
      | Some recent_form =>
        let! X_current := select_features (feature_columns st) recent_form in
        let! sc := get_key "player_value" (scalers st) in
        let! X_current_scaled := transform sc X_current in
        let! m := get_key "player_value" (models st) in
        let! current_impact := predict m X_current_scaled in
        let! current_age := get_key "age" recent_form in
        let! current_games := get_key "career_games" recent_form in
        let! projections := map_outcome (fun year =>
              let! seasons := get_key "seasons_played" recent_form in
              let proj := projection_features X_current current_age current_games seasons year in
              let! projected_impact := score sc m proj in
              Ret (mkProjection year (opt_add current_age (inject_Z year)) projected_impact
                     (opt_add current_games (inject_Z (22 * year)))))
            (map (fun k => Z.of_nat (S k)) (seq 0 (Z.to_nat projection_years))) in
        let! peak := peak_of projections in
        Ret (Potential current_impact current_age (determine_career_stage current_age)
               projections peak (assess_injury_risk player_data)
               (identify_development_areas features_df))
      end
    end in
  match body with
  | Ret p => (st, p)
  | Raise e => (st, PotentialError e)
  end.

End Projection.

End Evaluation.
Import Evaluation.

(* ------------------------------------------------------------------ *)
(** ** [TeamAnalysisModel] ([src/app/models/enhanced_ml_models.py])   *)
(* ------------------------------------------------------------------ *)

Module TeamAnalysis.
Local Open Scope string_scope.









Record team_stats := mkTeamStats {
  total_matches : Z; wins : Z; losses : Z;
  avg_score_for : Q; avg_score_against : Q;
  avg_q1_score : Q; avg_q2_score : Q; avg_q3_score : Q; avg_final_score : Q;
  win_percentage : Q; avg_margin : Q
}.






Record recent_form := mkRecentForm {
  recent_record : string; recent_win_percentage : Q; recent_avg_score : Q;
  form_trend : string; consistency : Q
}.








Record expected_performance := mkExpected {
  expected_win_percentage : Q; expected_wins_remaining : Q; finals_probability : Q
}.

(** Python's [max(a, b)] and [min(a, b)]: the first argument unless the
    second is strictly greater / smaller. *)
Definition py_max (a b : Q) : Q := if Qltb a b then b else a.
Definition py_min (a b : Q) : Q := if Qltb b a then b else a.

(** [_calculate_expected_performance(team_stats)] *)
Definition calculate_expected_performance (ts : team_stats) : expected_performance :=
  let margin := avg_margin ts in
  let expected_win_pct := (50 + margin * (5#2))%Q in
  let expected_win_pct := py_max 0 (py_min 100 expected_win_pct) in
  {| expected_win_percentage := expected_win_pct;
     expected_wins_remaining := (expected_win_pct / 100 * inject_Z (22 - total_matches ts))%Q;
     finals_probability := py_max 0 (py_min 100 (expected_win_pct - 30)) |}.





Section Form.

(** The square root of [np.std], a floating-point operation. *)
Variable sqrt : Q -> Q.



End Form.

End TeamAnalysis.
Import TeamAnalysis.

(* ------------------------------------------------------------------ *)
(** ** Concrete inputs                                                 *)
(* ------------------------------------------------------------------ *)

Module Samples.
Local Open Scope string_scope.

(** A row with a single numeric column. *)
Definition stat_row (col : string) (i : nat) (v : Q) : row :=
  mkRow i (fun c => if String.eqb c col then CNum v else CNa).

(** Scenario B's population: disposals 10, 20, 30, 40, 50. *)
Definition disposals_df : frame :=
  mkFrame ["disposals"]
    [stat_row "disposals" 0 10; stat_row "disposals" 1 20; stat_row "disposals" 2 30;
     stat_row "disposals" 3 40; stat_row "disposals" 4 50].


Definition high_disposals : filters :=
  mkFilters [] [] [] [] (None, None) [("disposals", "high")] None None.

Definition limit_filters (n : Z) : filters :=
  mkFilters [] [] [] [] (None, None) [] None (Some n).

Definition sorted_limited (n : Z) : filters :=
  mkFilters [] [] [] [] (None, None) [] (Some "disposals") (Some n).

(** Split a pattern at its [|] characters. *)
Fixpoint split_bar (s : text) (cur : text) : list text :=
  match s with
  | [] => [rev cur]
  | c :: s' => if Ascii.eqb c "|"%char then rev cur :: split_bar s' [] else split_bar s' (c :: cur)
  end.

(** [re.compile(pat, re.IGNORECASE).search] for a pattern that is an
    alternation of plain lower-case words (as the extractor's team keys
    are): some alternative occurs in the lower-cased subject. *)
Definition plain_team_regex (pat : string) : option (string -> bool) :=
  Some (fun s => existsb (fun alt => contains (lower (txt s)) alt) (split_bar (txt pat) [])).

Definition team_row (i : nat) (team : string) (age : Q) (disposals : Q) : row :=
  mkRow i (fun c =>
    if String.eqb c "Team" then CStr team
    else if String.eqb c "Age" then CNum age
    else if String.eqb c "disposals" then CNum disposals
    else CNa).

Definition teams_df : frame :=
  mkFrame ["Team"; "Age"; "disposals"]
    [team_row 0 "Carlton" 21 25; team_row 1 "Richmond" 30 31; team_row 2 "Carlton" 24 40;
     team_row 3 "Geelong" 22 12; team_row 4 "Carlton" 27 33].

Definition carlton_sorted : filters :=
  mkFilters [] ["carlton"] [] [] (None, Some 26%Z) [] (Some "disposals") (Some 2%Z).

(** Scenario C's projection input: a raw counter, a rolling mean and a
    trend feature. *)
Definition scenario_c_features : feature_vec :=
  [("career_games", Some 50%Q); ("kicks_avg_10", Some 10%Q); ("kicks_trend", Some 10%Q)].

(** A model directory holding one model and one scaler. *)
Definition disk_one : disk_models :=
  mkDiskModels [("player_value", fun _ => Some 1%Q)] [("player_value", fun _ => None)] None.



End Samples.
Import Samples.

(* ------------------------------------------------------------------ *)
(** ** Notions used in the statements and proofs below                 *)
(* ------------------------------------------------------------------ *)

Module Aux.

(** An extracted age bound, when present, lies in [0, 99]. *)
Definition age_ok (o : option Z) : Prop := match o with Some a => (0 <= a <= 99)%Z | None => True end.




(** Two sort keys the descending sort tells apart: numbers of different
    value, different strings. NaN cells are placed last in their original
    order by pandas as by the model, and a column mixing numbers and
    strings makes the sort raise, so those pairs need nothing. *)
Definition cells_distinct (a b : cell) : Prop :=
  match a, b with
  | CNum x, CNum y => ~ (x == y)%Q
  | CStr s, CStr t => s <> t
  | _, _ => True
  end.

(** The rows of [d] have pairwise distinct values in the [sort_by] column
    of [f]: the descending order of any subset of them is then unique, and
    the unstable quicksort of pandas gives the same order as the model. *)
Definition sort_keys_distinct (d : frame) (f : filters) : Prop :=
  match f_sort_by f with
  | Some s => ForallOrdPairs (fun a b => cells_distinct (row_cell a s) (row_cell b s)) (rows d)
  | None => True
  end.

End Aux.
Import Aux.

(* ================================================================== *)
(** * Properties                                                       *)
(* ================================================================== *)

(** ** Generic list facts *)

Lemma filter_sublist {A} (p : A -> bool) (l : list A) : List.filter p l `sublist_of` l.
Proof.
  induction l as [|x l IH]; simpl; [constructor|].
  destruct (p x); [apply sublist_skip | apply sublist_cons]; exact IH.
Qed.

Lemma ins_desc_perm {A} (gt : A -> A -> bool) x l : ins_desc gt x l ≡ₚ x :: l.
Proof.
  induction l as [|y l IH]; simpl; [done|].
  destruct (gt x y); [done|].
  rewrite IH. apply Permutation_swap.
Qed.

Lemma sort_desc_perm {A} (gt : A -> A -> bool) l : sort_desc gt l ≡ₚ l.
Proof.
  unfold sort_desc.
  assert (H : forall acc, fold_left (fun acc x => ins_desc gt x acc) l acc ≡ₚ (l ++ acc)%list).
  { induction l as [|x l IH]; intros acc; simpl; [done|].
    rewrite IH, ins_desc_perm. symmetry. apply Permutation_middle. }
  rewrite H, app_nil_r. done.
Qed.

(** ** Confidence of the extractor *)



(** C10: the confidence never looks at the [limit] field: two filter sets
    that differ only in [limit] get the same confidence, and a filter set
    whose only non-empty field is [limit] gets confidence 0. *)
Theorem confidence_independent_of_limit
    (ps ts ls ss : list string) (age : option Z * option Z)
    (cmp : list (string * string)) (sort_by : option string) (l1 l2 : option Z) :
  calculate_confidence (mkFilters ps ts ls ss age cmp sort_by l1)
  = calculate_confidence (mkFilters ps ts ls ss age cmp sort_by l2) /\
  (calculate_confidence (mkFilters [] [] [] [] (None, None) [] None l1) == 0)%Q.
Proof. split; [reflexivity | vm_compute; reflexivity]. Qed.

(** ** Team-fit scoring *)

Lemma clamp0_nonneg (s : Q) : (0 <= clamp0 s)%Q.
Proof.
  unfold clamp0. destruct (Qlt_le_dec 0 s); [apply Qlt_le_weak; assumption | apply Qle_refl].
Qed.

(** C8: for each predefined team style, every row is scored, and every
    fit score is at least 0 (the weighted sum is clamped by [max(0, .)]),
    whatever the population; the only other outcome is the TypeError
    raised by a string cell in a profile column. *)
Theorem team_fit_scores_nonnegative (d : frame) (team_style : string) :
  In team_style (map fst team_requirements) ->
  match evaluate_team_fit d team_style with
  | FitScored scored => Forall (fun p => 0 <= snd p)%Q scored
  | FitUnscored _ => False
  | FitRaises => True
  end.
Proof.
  intros Hin.
  assert (Hreqs : exists reqs, lookup_str team_style team_requirements = Some reqs).
  { simpl in Hin.
    destruct Hin as [<-|[<-|[<-|[<-|[]]]]]; eexists; reflexivity. }
  destruct Hreqs as [reqs Hreqs].
  unfold evaluate_team_fit. rewrite Hreqs.
  destruct (existsb _ reqs); [exact I|].
  apply List.Forall_forall. intros p Hp.
  apply (Permutation_in _ (sort_desc_perm _ _)) in Hp.
  apply in_map_iff in Hp as [r [<- _]].
  apply clamp0_nonneg.
Qed.

Lemma team_fit_scores_nonnegative_witness :
  In "pressure_based"%string (map fst team_requirements) /\
  match evaluate_team_fit teams_df "pressure_based" with
  | FitScored scored => Forall (fun p => 0 <= snd p)%Q scored
  | FitUnscored _ => False
  | FitRaises => True
  end.
Proof.
  split; [simpl; tauto|].
  apply team_fit_scores_nonnegative. simpl; tauto.
Defined.

(** ** Prediction without a fitted model *)

(** C3, counterexample: the basic analyzer's [predict_player_potential]
    with no trained performance model returns its input DataFrame as it
    is, with no error condition. *)
Lemma untrained_analyzer_returns_input :
  Analyzer.predict_player_potential (mkAnalyzer None (fun X => Some X)) disposals_df
  = disposals_df.
Proof. reflexivity. Qed.

Lemma select_features_ok_or_raise (fc : list string) (fv : feature_vec) :
  (exists x, select_features fc fv = Ret x) \/ (exists e, select_features fc fv = Raise e).
Proof. destruct (select_features fc fv); eauto. Qed.

(** C3 (amended): the basic analyzer, without a trained performance
    model, returns its input unchanged; the enhanced model, when no
    ["player_value"] scorer is available after its attempt to load one,
    returns an error record and never a projection. *)
Theorem potential_without_scorer :
  (forall sc d, Analyzer.predict_player_potential (mkAnalyzer None sc) d = d) /\
  (forall prep dev st disk data years,
     lookup_str "player_value" (models (if is_trained st then st else load_models st disk)) = None ->
     exists e, snd (Evaluation.predict_player_potential prep dev st disk data years) = PotentialError e).
Proof.
  split; [reflexivity|].
  intros prep dev st disk data years Hnone.
  unfold Evaluation.predict_player_potential.
  set (st' := if is_trained st then st else load_models st disk) in *.
  destruct data as [|r data]; [eexists; reflexivity|].
  destruct (last (prep (r :: data))) as [recent|]; [|eexists; reflexivity].
  cbn [obind].
  destruct (select_features (feature_columns st') recent); cbn [obind]; [|eexists; reflexivity].
  destruct (get_key "player_value" (scalers st')); cbn [obind]; [|eexists; reflexivity].
  destruct (transform _ _); cbn [obind]; [|eexists; reflexivity].
  unfold get_key at 1. rewrite Hnone. cbn [obind]. eexists; reflexivity.
Qed.

Lemma potential_without_scorer_witness :
  lookup_str "player_value"
    (models (if is_trained (mkEvalState [] [] [] false) then mkEvalState [] [] [] false
             else load_models (mkEvalState [] [] [] false) None)) = None /\
  snd (Evaluation.predict_player_potential (fun rs => map pr_fields rs) (fun _ => [])
         (mkEvalState [] [] [] false) None [mkPerfRow 2024 []] 3%Z)
  = PotentialError "'player_value'".
Proof.
  split; [reflexivity|].
  destruct (proj2 potential_without_scorer (fun rs => map pr_fields rs) (fun _ => [])
              (mkEvalState [] [] [] false) None [mkPerfRow 2024 []] 3%Z eq_refl) as [e He].
  rewrite He. vm_compute in He. symmetry. exact He.
Defined.

(** ** Projection features *)

Section ProjectionFacts.
Local Open Scope string_scope.

Definition scale_col (factor : Q) (acc : feature_vec) (col : string) : feature_vec :=
  map (fun e => if String.eqb (fst e) col
                then (fst e, option_map (fun x => (x * factor)%Q) (snd e)) else e) acc.

Lemma scale_trends_unfold (fv : feature_vec) (factor : Q) :
  scale_trends fv factor = fold_left (scale_col factor) (List.filter is_trend_col (map fst fv)) fv.
Proof. reflexivity. Qed.

Lemma lookup_scale_col (factor : Q) (acc : feature_vec) (col c : string) :
  lookup_str c (scale_col factor acc col) =
  if String.eqb c col then option_map (option_map (fun x => (x * factor)%Q)) (lookup_str c acc)
  else lookup_str c acc.
Proof.
  induction acc as [|[k v] acc IH]; simpl.
  - destruct (String.eqb c col); reflexivity.
  - destruct (String.eqb_spec k col) as [->|Hk]; simpl; rewrite IH.
    + destruct (String.eqb_spec c col); reflexivity.
    + destruct (String.eqb_spec c k) as [->|Hc].
      * apply String.eqb_neq in Hk. rewrite Hk. reflexivity.
      * destruct (String.eqb c col); reflexivity.
Qed.

Lemma lookup_scale_fold (factor : Q) (cs : list string) (acc : feature_vec) (c : string) :
  NoDup cs ->
  lookup_str c (fold_left (scale_col factor) cs acc) =
  if existsb (String.eqb c) cs
  then option_map (option_map (fun x => (x * factor)%Q)) (lookup_str c acc)
  else lookup_str c acc.
Proof.
  revert acc. induction cs as [|col cs IH]; intros acc Hnd; simpl; [reflexivity|].
  inversion Hnd as [|? ? Hnotin Hnd']; subst.
  rewrite IH by exact Hnd'. rewrite lookup_scale_col.
  destruct (String.eqb_spec c col) as [->|Hc]; simpl.
  - assert (Hf : existsb (String.eqb col) cs = false).
    { apply Bool.not_true_iff_false. intros Hex.
      apply existsb_exists in Hex as [x [Hx Heq]].
      apply String.eqb_eq in Heq. subst. apply Hnotin. apply list_elem_of_In. exact Hx. }
    rewrite Hf. reflexivity.
  - reflexivity.
Qed.

Lemma existsb_filter_eqb (p : string -> bool) (l : list string) (c : string) :
  existsb (String.eqb c) (List.filter p l) = p c && existsb (String.eqb c) l.
Proof.
  induction l as [|x l IH]; simpl; [destruct (p c); reflexivity|].
  destruct (p x) eqn:Px; simpl; rewrite IH;
  destruct (String.eqb_spec c x) as [<-|]; rewrite ?Px; simpl;
  destruct (p c), (existsb (String.eqb c) l); reflexivity.
Qed.

Lemma lookup_none_if_absent (fv : feature_vec) (c : string) :
  existsb (String.eqb c) (map fst fv) = false -> lookup_str c fv = None.
Proof.
  induction fv as [|[k v] fv IH]; simpl; [reflexivity|].
  destruct (String.eqb c k); [discriminate|]. exact IH.
Qed.

Lemma lookup_scale_trends (fv : feature_vec) (factor : Q) (c : string) :
  NoDup (map fst fv) ->
  lookup_str c (scale_trends fv factor) =
  if is_trend_col c then option_map (option_map (fun x => (x * factor)%Q)) (lookup_str c fv)
  else lookup_str c fv.
Proof.
  intros Hnd. rewrite scale_trends_unfold, lookup_scale_fold.
  - rewrite existsb_filter_eqb.
    destruct (is_trend_col c); simpl; [|reflexivity].
    destruct (existsb (String.eqb c) (map fst fv)) eqn:E; [reflexivity|].
    rewrite lookup_none_if_absent by exact E. reflexivity.
  - eapply sublist_NoDup; [exact Hnd | apply filter_sublist].
Qed.

Lemma existsb_fst_eqb (fv : feature_vec) (k : string) :
  existsb (fun e => String.eqb (fst e) k) fv = existsb (String.eqb k) (map fst fv).
Proof.
  induction fv as [|[k' v] fv IH]; simpl; [reflexivity|].
  rewrite IH, (String.eqb_sym k' k). reflexivity.
Qed.

Lemma lookup_overwrite (fv : feature_vec) (k c : string) (v : option Q) :
  lookup_str c (map (fun e => if String.eqb (fst e) k then (k, v) else e) fv) =
  if String.eqb c k then (if existsb (String.eqb k) (map fst fv) then Some v else None)
  else lookup_str c fv.
Proof.
  induction fv as [|[k' v'] fv IH]; simpl; [destruct (String.eqb c k); reflexivity|].
  rewrite (String.eqb_sym k k').
  destruct (String.eqb_spec k' k) as [->|Hk]; simpl.
  - rewrite IH. destruct (String.eqb c k); reflexivity.
  - rewrite IH. destruct (String.eqb_spec c k') as [->|Hc].
    + apply String.eqb_neq in Hk. rewrite Hk. reflexivity.
    + destruct (String.eqb c k); reflexivity.
Qed.

Lemma lookup_set_col (fv : feature_vec) (k c : string) (v : option Q) :
  lookup_str c (set_col fv k v) = if String.eqb c k then Some v else lookup_str c fv.
Proof.
  unfold set_col. rewrite existsb_fst_eqb.
  destruct (existsb (String.eqb k) (map fst fv)) eqn:E.
  - rewrite lookup_overwrite, E. reflexivity.
  - induction fv as [|[k' v'] fv IH]; simpl in *.
    + destruct (String.eqb c k); reflexivity.
    + apply Bool.orb_false_iff in E as [E1 E2].
      rewrite (IH E2). destruct (String.eqb_spec c k') as [->|]; [|reflexivity].
      rewrite String.eqb_sym, E1. reflexivity.
Qed.

Lemma names_set_col (fv : feature_vec) (k : string) (v : option Q) :
  NoDup (map fst fv) -> NoDup (map fst (set_col fv k v)).
Proof.
  intros Hnd. unfold set_col. rewrite existsb_fst_eqb.
  destruct (existsb (String.eqb k) (map fst fv)) eqn:E.
  - replace (map fst (map _ fv)) with (map fst fv); [exact Hnd|].
    rewrite map_map. apply map_ext. intros [k' v']. simpl.
    destruct (String.eqb_spec k' k); simpl; congruence.
  - rewrite map_app. simpl. apply NoDup_app. split; [exact Hnd|]. split.
    + intros x Hx Hk. apply list_elem_of_singleton in Hk. subst x.
      apply list_elem_of_In in Hx.
      assert (existsb (String.eqb k) (map fst fv) = true) as Ht.
      { apply existsb_exists. exists k. split; [exact Hx | apply String.eqb_refl]. }
      congruence.
    + apply NoDup_singleton.
Qed.

Lemma lookup_of_in (fv : feature_vec) (c : string) (v : option Q) :
  NoDup (map fst fv) -> In (c, v) fv -> lookup_str c fv = Some v.
Proof.
  induction fv as [|[k w] fv IH]; simpl; [tauto|].
  intros Hnd Hin. inversion Hnd as [|? ? Hk Hnd']; subst.
  destruct Hin as [Heq|Hin].
  - inversion Heq; subst. rewrite String.eqb_refl. reflexivity.
  - destruct (String.eqb_spec c k) as [->|]; [|exact (IH Hnd' Hin)].
    exfalso. apply Hk. apply list_elem_of_In. apply in_map_iff. exists (k, v). split; [reflexivity | exact Hin].
Qed.

End ProjectionFacts.

(** C6, counterexample: projecting Scenario C's entity (age 21) one year
    ahead changes the non-trend feature [career_games] from 50 to 72
    (22 games a year) before the scorer sees it. *)
Lemma projection_changes_career_games :
  lookup_str "career_games" scenario_c_features = Some (Some 50%Q) /\
  lookup_str "career_games"
    (projection_features scenario_c_features (Some 21%Q) (Some 50%Q) (Some 3%Q) 1)
  = Some (Some 72%Q).
Proof. split; reflexivity. Qed.

(** C6 (amended): in the features handed to the scorer at offset [year],
    [age], [career_games] and [seasons_played] hold their projected values,
    every column whose name contains "trend" is multiplied by the age
    factor of the projected age, and every other column is unchanged. *)
Theorem projection_scales_only_trend_features
    (X : feature_vec) (age games seasons : option Q) (year : Z) :
  NoDup (map fst X) ->
  forall c v, In (c, v) X ->
  lookup_str c (projection_features X age games seasons year) =
  Some (if String.eqb c "age" then opt_add age (inject_Z year)
        else if String.eqb c "career_games" then opt_add games (inject_Z (22 * year))
        else if String.eqb c "seasons_played" then opt_add seasons (inject_Z year)
        else if is_trend_col c
        then option_map (fun x => x * calculate_age_factor (opt_add age (inject_Z year)))%Q v
        else v).
Proof.
  intros Hnd c v Hin. unfold projection_features.
  rewrite lookup_scale_trends
    by (repeat apply names_set_col; exact Hnd).
  rewrite !lookup_set_col.
  destruct (String.eqb_spec c "age") as [->|Ha]; [reflexivity|].
  destruct (String.eqb_spec c "career_games") as [->|Hg]; [reflexivity|].
  destruct (String.eqb_spec c "seasons_played") as [->|Hs]; [reflexivity|].
  rewrite (lookup_of_in X c v Hnd Hin).
  destruct (is_trend_col c); reflexivity.
Qed.

Lemma projection_scales_only_trend_features_witness :
  NoDup (map fst scenario_c_features) /\
  lookup_str "kicks_avg_10"
    (projection_features scenario_c_features (Some 21%Q) (Some 50%Q) (Some 3%Q) 1)
  = Some (Some 10%Q) /\
  lookup_str "kicks_trend"
    (projection_features scenario_c_features (Some 21%Q) (Some 50%Q) (Some 3%Q) 1)
  = Some (Some (10 * (21#20))%Q).
Proof.
  assert (Hnd : NoDup (map fst scenario_c_features)) by (apply NoDup_ListNoDup; vm_compute; repeat constructor; simpl; intuition discriminate).
  split; [exact Hnd|]. split.
  - exact (projection_scales_only_trend_features scenario_c_features _ _ _ 1 Hnd
             "kicks_avg_10" (Some 10%Q) (or_intror (or_introl eq_refl))).
  - exact (projection_scales_only_trend_features scenario_c_features _ _ _ 1 Hnd
             "kicks_trend" (Some 10%Q) (or_intror (or_intror (or_introl eq_refl)))).
Defined.

(** ** The row limit of the filter engine *)

(** C4, counterexample: a limit of -2 is not treated as "no limit": on the
    five-row Scenario B population it keeps only the first three rows. *)
Lemma negative_limit_truncates :
  length (rows disposals_df) = 5 /\
  map row_id (rows (apply_filters_to_dataframe plain_team_regex disposals_df (limit_filters (-2))))
  = [0; 1; 2].
Proof. split; reflexivity. Qed.

Lemma take_length_le_Z {A} (n : Z) (l : list A) : length (take (Z.to_nat n) l) <= Z.to_nat n.
Proof. rewrite length_take. lia. Qed.

(** C4 (amended): the limit is applied last, to the rows that survive
    steps (1)-(5): no limit or a limit of 0 leaves them untruncated; a
    positive limit [n] keeps the first [n] of them (so at most [n] rows);
    a negative limit [-k] drops the last [k] of them ([head(-k)]). When a
    step raises, the input is returned as it is. *)
Theorem limit_semantics (team_regex : string -> option (string -> bool)) (d : frame) (f : filters) :
  match filter_and_sort team_regex d f with
  | Some rs =>
      cols (apply_filters_to_dataframe team_regex d f) = cols d /\
      rows (apply_filters_to_dataframe team_regex d f) =
        match f_limit f with
        | None => rs
        | Some n =>
            if (n =? 0)%Z then rs
            else if (0 <? n)%Z then take (Z.to_nat n) rs
            else take (length rs - Z.to_nat (- n)) rs
        end /\
      match f_limit f with
      | Some n => (0 < n)%Z -> length (rows (apply_filters_to_dataframe team_regex d f)) <= Z.to_nat n
      | None => True
      end
  | None => apply_filters_to_dataframe team_regex d f = d
  end.
Proof.
  unfold apply_filters_to_dataframe.
  destruct (filter_and_sort team_regex d f) as [rs|]; [|reflexivity].
  cbn [cols rows]. unfold limit_step, truthy_optZ, head_n.
  destruct (f_limit f) as [n|]; [|repeat split].
  repeat split.
  - destruct (Z.eqb_spec n 0) as [->|Hn]; [reflexivity|].
    destruct (Z.leb_spec 0 n); destruct (Z.ltb_spec 0 n); try reflexivity; lia.
  - intros Hpos.
    destruct (Z.eqb_spec n 0) as [->|Hn]; [lia|].
    destruct (Z.leb_spec 0 n); [|lia]. apply take_length_le_Z.
Qed.

Lemma limit_semantics_witness :
  match filter_and_sort plain_team_regex disposals_df (limit_filters 2) with
  | Some rs =>
      cols (apply_filters_to_dataframe plain_team_regex disposals_df (limit_filters 2)) = cols disposals_df /\
      rows (apply_filters_to_dataframe plain_team_regex disposals_df (limit_filters 2)) =
        match f_limit (limit_filters 2) with
        | None => rs
        | Some n =>
            if (n =? 0)%Z then rs
            else if (0 <? n)%Z then take (Z.to_nat n) rs
            else take (length rs - Z.to_nat (- n)) rs
        end /\
      match f_limit (limit_filters 2) with
      | Some n => (0 < n)%Z ->
          length (rows (apply_filters_to_dataframe plain_team_regex disposals_df (limit_filters 2))) <= Z.to_nat n
      | None => True
      end
  | None => apply_filters_to_dataframe plain_team_regex disposals_df (limit_filters 2) = disposals_df
  end.
Proof. exact (limit_semantics plain_team_regex disposals_df (limit_filters 2)). Defined.

(** ** Rows of the filter engine's result *)

Lemma num_mask_sublist (col : string) (keep : Q -> bool) (rs rs' : list row) :
  num_mask col keep rs = Some rs' -> rs' `sublist_of` rs.
Proof.
  unfold num_mask. destruct existsb; [discriminate|].
  intros [= <-]. apply filter_sublist.
Qed.

Lemma position_step_sublist cs f rs rs' :
  position_step cs f rs = Some rs' -> rs' `sublist_of` rs.
Proof.
  unfold position_step. destruct (_ && _); [destruct str_accessor_ok; [|discriminate]|];
    intros [= <-]; [apply filter_sublist | done].
Qed.

Lemma team_step_sublist team_regex cs f rs rs' :
  team_step team_regex cs f rs = Some rs' -> rs' `sublist_of` rs.
Proof.
  unfold team_step. destruct (_ && _); [|intros [= <-]; done].
  destruct str_accessor_ok; [|discriminate].
  destruct (team_regex _); [|discriminate]. intros [= <-]. apply filter_sublist.
Qed.

Lemma age_step_sublist cs f rs rs' :
  age_step cs f rs = Some rs' -> rs' `sublist_of` rs.
Proof.
  unfold age_step. destruct (f_age_range f) as [mn mx].
  destruct (has_col cs "Age"); [|intros [= <-]; done].
  destruct mn as [m|]; simpl.
  - destruct (num_mask _ _ rs) as [rs1|] eqn:E1; simpl; [|discriminate].
    apply num_mask_sublist in E1.
    destruct mx as [m'|]; [|intros [= <-]; exact E1].
    intros E2. apply num_mask_sublist in E2. etrans; eassumption.
  - destruct mx as [m'|]; [|intros [= <-]; done].
    apply num_mask_sublist.
Qed.

Lemma comparison_step_sublist cs rs sc rs' :
  comparison_step cs rs sc = Some rs' -> rs' `sublist_of` rs.
Proof.
  destruct sc as [stat comparison]. unfold comparison_step.
  destruct (has_col cs stat); [|intros [= <-]; done].
  destruct (String.eqb comparison "high").
  { destruct (quantile _ _ _); simpl; [apply num_mask_sublist | discriminate]. }
  destruct (String.eqb comparison "low").
  { destruct (quantile _ _ _); simpl; [apply num_mask_sublist | discriminate]. }
  destruct (String.eqb comparison "medium"); [|intros [= <-]; done].
  destruct (quantile _ _ (1#4)); simpl; [|discriminate].
  destruct (quantile _ _ (3#4)); simpl; [apply num_mask_sublist | discriminate].
Qed.

Lemma fold_opt_sublist {B} (g : list row -> B -> option (list row)) (l : list B) (rs rs' : list row) :
  (forall a x a', g a x = Some a' -> a' `sublist_of` a) ->
  fold_opt g l rs = Some rs' -> rs' `sublist_of` rs.
Proof.
  intros Hg. revert rs. induction l as [|x l IH]; intros rs; simpl.
  - intros [= <-]. done.
  - destruct (g rs x) as [a'|] eqn:E; [|discriminate].
    intros Hf. etrans; [exact (IH _ Hf) | exact (Hg _ _ _ E)].
Qed.

Lemma filter_partition_perm {A} (p : A -> bool) (l : list A) :
  (List.filter (fun x => negb (p x)) l ++ List.filter p l)%list ≡ₚ l.
Proof.
  induction l as [|x l IH]; simpl; [done|].
  destruct (p x); simpl.
  - rewrite <- Permutation_middle. constructor. exact IH.
  - constructor. exact IH.
Qed.

Lemma sort_values_desc_perm col rs rs' :
  sort_values_desc col rs = Some rs' -> rs' ≡ₚ rs.
Proof.
  unfold sort_values_desc.
  destruct (_ && _); [discriminate|].
  destruct existsb; intros [= <-];
    rewrite sort_desc_perm; apply filter_partition_perm.
Qed.

Lemma filter_and_sort_steps team_regex d f rs :
  filter_and_sort team_regex d f = Some rs ->
  exists rs4, rs4 `sublist_of` rows d /\
    (if sort_applies (cols d) f then sort_values_desc (match f_sort_by f with Some s => s | None => "" end) rs4 = Some rs
     else rs = rs4).
Proof.
  unfold filter_and_sort.
  destruct (position_step _ _ _) as [rs1|] eqn:E1; simpl; [|discriminate].
  destruct (team_step _ _ _ _) as [rs2|] eqn:E2; simpl; [|discriminate].
  destruct (age_step _ _ _) as [rs3|] eqn:E3; simpl; [|discriminate].
  destruct (fold_opt _ _ _) as [rs4|] eqn:E4; simpl; [|discriminate].
  intros E5. exists rs4. split.
  - apply fold_opt_sublist in E4; [|apply comparison_step_sublist].
    apply age_step_sublist in E3. apply team_step_sublist in E2. apply position_step_sublist in E1.
    do 3 (etrans; [eassumption|]). exact E1.
  - unfold sort_step, sort_applies in *. destruct (f_sort_by f) as [s|]; [|congruence].
    destruct (_ && _); congruence.
Qed.

Lemma limit_step_sublist f rs : limit_step f rs `sublist_of` rs.
Proof.
  unfold limit_step, head_n. destruct (f_limit f); [|done].
  destruct (truthy_optZ _); [|done]. destruct (0 <=? _)%Z; apply sublist_take.
Qed.

(** C7: the engine fabricates no rows and keeps the columns: the rows of
    the result are a sub-multiset of the input rows (a permutation of a
    selection of them), and when step (5) does not sort they are a
    subsequence of the input rows, in their original order. The input is
    a value the engine only reads ([df.copy()] is filtered), so it is
    never changed. *)
Theorem filter_result_within_input (team_regex : string -> option (string -> bool)) (d : frame) (f : filters) :
  cols (apply_filters_to_dataframe team_regex d f) = cols d /\
  rows (apply_filters_to_dataframe team_regex d f) ⊆+ rows d /\
  (sort_applies (cols d) f = false ->
   rows (apply_filters_to_dataframe team_regex d f) `sublist_of` rows d).
Proof.
  unfold apply_filters_to_dataframe.
  destruct (filter_and_sort team_regex d f) as [rs|] eqn:E; [|repeat split; done].
  cbn [cols rows].
  destruct (filter_and_sort_steps _ _ _ _ E) as [rs4 [Hsub Hsort]].
  split; [reflexivity|]. split.
  - etrans; [apply sublist_submseteq, limit_step_sublist|].
    destruct (sort_applies (cols d) f).
    + apply sort_values_desc_perm in Hsort. rewrite Hsort. apply sublist_submseteq, Hsub.
    + subst. apply sublist_submseteq, Hsub.
  - intros Hns. rewrite Hns in Hsort. subst.
    etrans; [apply limit_step_sublist | exact Hsub].
Qed.

Lemma filter_result_within_input_witness :
  sort_applies (cols teams_df) high_disposals = false /\
  rows (apply_filters_to_dataframe plain_team_regex teams_df high_disposals) `sublist_of` rows teams_df.
Proof.
  split; [reflexivity|].
  exact (proj2 (proj2 (filter_result_within_input plain_team_regex teams_df high_disposals)) eq_refl).
Defined.

(** ** Attribution of comparison keywords *)

Lemma dom_dict_set (d : list (string * string)) (s v k : string) :
  In k (map fst (dict_set d s v)) <-> In k (map fst d) \/ k = s.
Proof.
  induction d as [|[k' v'] d IH]; simpl.
  - intuition.
  - destruct (String.eqb_spec s k') as [->|]; simpl; rewrite ?IH; intuition.
Qed.

Lemma dom_fold {B} (f : list (string * string) -> B -> list (string * string))
    (R : string -> B -> Prop) (l : list B) :
  (forall d x k, In k (map fst (f d x)) <-> In k (map fst d) \/ R k x) ->
  forall d k, In k (map fst (fold_left f l d)) <-> In k (map fst d) \/ exists x, In x l /\ R k x.
Proof.
  intros Hf. induction l as [|x l IH]; intros d k; simpl.
  - split; [tauto|]. intros [H|[x [[] _]]]. exact H.
  - rewrite IH, Hf. split.
    + intros [[H|H]|[y [Hy Hr]]]; eauto.
    + intros [H|[y [[<-|Hy] Hr]]]; eauto.
Qed.

Lemma dom_comp_type_step q stat kw d ct k :
  In k (map fst (comp_type_step q stat kw d ct)) <->
  In k (map fst d) \/
  (k = stat /\ exists ck, In ck (snd ct) /\ has q ck = true /\ near q kw ck = true).
Proof.
  unfold comp_type_step.
  destruct (existsb _ (snd ct)) eqn:E.
  - rewrite dom_dict_set. apply existsb_exists in E as [ck [Hin Hck]].
    apply andb_prop in Hck. split; [intros [H|H]; eauto|].
    intros [H|[H _]]; auto.
  - split; [tauto|]. intros [H|[_ [ck [Hin [H1 H2]]]]]; [exact H|].
    assert (existsb (fun ck => has q ck && near q kw ck) (snd ct) = true) as Ht.
    { apply existsb_exists. exists ck. rewrite H1, H2. auto. }
    congruence.
Qed.

Lemma dom_keyword_step q stat d kw k :
  In k (map fst (keyword_step q stat d kw)) <->
  In k (map fst d) \/
  (has q kw = true /\ k = stat /\
   exists ct ck, In ct comparison_keywords /\ In ck (snd ct) /\ has q ck = true /\ near q kw ck = true).
Proof.
  unfold keyword_step. destruct (has q kw) eqn:Hkw.
  - rewrite (dom_fold _ _ _ (dom_comp_type_step q stat kw)). split.
    + intros [H|[ct [Hct [-> [ck Hck]]]]]; [auto|]. right. eauto 7.
    + intros [H|[_ [-> [ct [ck [Hct Hck]]]]]]; [auto|]. right. eauto.
  - split; [tauto|]. intros [H|[H _]]; [exact H | discriminate].
Qed.

Lemma dom_stat_step q d e k :
  In k (map fst (stat_step q d e)) <->
  In k (map fst d) \/
  (k = fst e /\ exists kw, In kw (snd e) /\ has q kw = true /\
   exists ct ck, In ct comparison_keywords /\ In ck (snd ct) /\ has q ck = true /\ near q kw ck = true).
Proof.
  unfold stat_step.
  rewrite (dom_fold _ _ _ (dom_keyword_step q (fst e))). split.
  - intros [H|[kw [Hkw [Hh [-> Hc]]]]]; [auto|]. right. eauto.
  - intros [H|[-> [kw [Hkw [Hh Hc]]]]]; [auto|]. right. eauto.
Qed.

(** C5, counterexample: in "high marks and tackles" the comparison
    keyword "high" is nearest to "mark" (offset 5) but is also attributed
    to the farther "tackle" (offset 15). *)
Lemma comparison_not_only_nearest :
  extract_comparisons (txt "high marks and tackles")
  = [("marks", "high"); ("tackles", "high")]%string.
Proof. vm_compute. reflexivity. Qed.

(** C5 (amended): a stat receives a comparison bucket exactly when one of
    its keywords occurs in the (lower-cased) query and some comparison
    keyword occurs whose first occurrence is less than 50 characters from
    the keyword's first occurrence; every stat meeting this receives one,
    so a single comparison keyword can be attributed to several stats,
    nearest or not. *)
Theorem comparison_attribution (q : text) (stat : string) :
  In stat (map fst (extract_comparisons q)) <->
  exists kws, In (stat, kws) stat_keywords /\
  exists kw, In kw kws /\ has q kw = true /\
  exists ct ck, In ct comparison_keywords /\ In ck (snd ct) /\
                has q ck = true /\ near q kw ck = true.
Proof.
  unfold extract_comparisons.
  rewrite (dom_fold _ _ _ (dom_stat_step q)). simpl. split.
  - intros [[]|[[s kws] [He [-> Hk]]]]. exists kws. split; [exact He | exact Hk].
  - intros [kws [He Hk]]. right. exists (stat, kws). auto.
Qed.

(** ** The number of a "top N" phrase *)

Lemma digit_not_space c : is_digit c = true -> is_space c = false.
Proof.
  unfold is_digit, is_space. set (n := code c). intros H.
  apply andb_prop in H as [H1 H2]. apply Nat.leb_le in H1, H2.
  destruct (Nat.leb_spec 9 n), (Nat.leb_spec n 13), (Nat.leb_spec 28 n), (Nat.leb_spec n 32),
    (Nat.eqb_spec n 133), (Nat.eqb_spec n 160); simpl; try reflexivity; lia.
Qed.

(** Past a digit-free stretch that ends in a letter, [\s*] stops before any digit. *)
Lemma skip_spaces_no_digit (x y : text) (c : ascii) :
  Forall (fun a => is_digit a = false) x -> is_digit c = false -> is_space c = false ->
  exists c' z, skip_spaces (x ++ c :: y) = c' :: z /\ is_digit c' = false.
Proof.
  intros Hx Hd Hs. induction Hx as [|a x Ha Hx IH]; simpl.
  - rewrite Hs. eauto.
  - destruct (is_space a); [exact IH | eauto].
Qed.

Lemma skip_spaces_digit_free (x : text) :
  Forall (fun a => is_digit a = false) x ->
  skip_spaces x = [] \/ exists c' z, skip_spaces x = c' :: z /\ is_digit c' = false.
Proof.
  intros Hx. induction Hx as [|a x Ha Hx IH]; simpl; [auto|].
  destruct (is_space a); [exact IH | eauto].
Qed.

Lemma limit_match_at_inv (s d : text) :
  limit_match_at s = Some d ->
  exists k, In k limit_prefixes /\ prefixb (txt k) s = true /\
    fst (take_digits (skip_spaces (drop (length (txt k)) s))) = d /\ d <> [].
Proof.
  unfold limit_match_at. induction limit_prefixes as [|k ks IH]; simpl; [discriminate|].
  destruct (prefixb (txt k) s) eqn:Hp.
  - destruct (take_digits _) as [[|c dd] rest] eqn:Ht.
    + intros H. destruct (IH H) as [k' ?]. exists k'. tauto.
    + intros [= <-]. exists k. rewrite Ht. simpl. intuition congruence.
  - intros H. destruct (IH H) as [k' ?]. exists k'. tauto.
Qed.

Lemma take_digits_skip_cons (c : ascii) (y : text) :
  is_digit c = false -> fst (take_digits (skip_spaces y)) = [] ->
  fst (take_digits (skip_spaces (c :: y))) = [].
Proof.
  intros Hc Hy. cbn [skip_spaces]. destruct (is_space c); [exact Hy|].
  cbn [take_digits]. rewrite Hc. reflexivity.
Qed.

Lemma take_digits_skip_app (x y : text) :
  Forall (fun a => is_digit a = false) x -> fst (take_digits (skip_spaces y)) = [] ->
  fst (take_digits (skip_spaces (x ++ y))) = [].
Proof.
  intros Hx Hy. induction Hx as [|a x Ha Hx IH]; [exact Hy|].
  apply take_digits_skip_cons; assumption.
Qed.

Ltac no_digits_ahead :=
  first [ reflexivity
        | apply take_digits_skip_cons; [assumption | no_digits_ahead]
        | apply take_digits_skip_app; [assumption | no_digits_ahead] ].

Lemma no_limit_match_before_top (p r : text) :
  p <> [] -> Forall (fun a => is_digit a = false) p ->
  limit_match_at (p ++ txt "top" ++ r) = None.
Proof.
  intros Hne Hp.
  destruct (limit_match_at _) as [d|] eqn:E; [|reflexivity]. exfalso.
  apply limit_match_at_inv in E as [k [Hk [Hpre [Hd Hdne]]]].
  simpl in Hk. destruct Hk as [<-|[<-|[<-|[]]]];
  destruct p as [|c1 [|c2 [|c3 [|c4 [|c5 p]]]]]; try congruence;
  cbn [txt list_ascii_of_string length drop skipn app] in Hd, Hpre.
  all: repeat match goal with H : Forall _ (_ :: _) |- _ => inversion H; clear H; subst end.
  all: first [ simpl in Hpre; rewrite ?Bool.andb_false_r in Hpre; discriminate Hpre
             | apply Hdne; try rewrite <- Hd; rewrite ?drop_0; no_digits_ahead ].
Qed.

Lemma skip_spaces_app_spaces (sp y : text) :
  Forall (fun a => is_space a = true) sp -> skip_spaces (sp ++ y) = skip_spaces y.
Proof. intros H. induction H as [|a sp Ha H IH]; simpl; [reflexivity|]. rewrite Ha. exact IH. Qed.

Lemma skip_spaces_digit_head (d : ascii) (y : text) :
  is_digit d = true -> skip_spaces (d :: y) = d :: y.
Proof. intros H. simpl. rewrite (digit_not_space d H). reflexivity. Qed.

Lemma take_digits_run (ds post : text) :
  Forall (fun a => is_digit a = true) ds -> Forall (fun a => is_digit a = false) post ->
  take_digits (ds ++ post) = (ds, post).
Proof.
  intros Hds Hpost. induction Hds as [|a ds Ha Hds IH]; simpl.
  - destruct Hpost as [|c post Hc _]; simpl; [reflexivity|]. rewrite Hc. reflexivity.
  - rewrite Ha, IH. reflexivity.
Qed.

Lemma skip_spaces_digits (ds y : text) :
  Forall (fun a => is_digit a = true) ds -> ds <> [] -> skip_spaces (ds ++ y) = ds ++ y.
Proof.
  intros Hds Hne. destruct Hds as [|d ds Hd _]; [congruence|].
  simpl. rewrite (digit_not_space d Hd). reflexivity.
Qed.

Lemma limit_search_skip (s : text) (c : ascii) (s' : text) :
  limit_match_at s = None -> s = c :: s' -> limit_search s = limit_search s'.
Proof. intros Hn ->. simpl. rewrite Hn. reflexivity. Qed.

Lemma limit_search_top (pre sp ds post : text) :
  Forall (fun a => is_digit a = false) pre ->
  Forall (fun a => is_space a = true) sp ->
  Forall (fun a => is_digit a = true) ds -> ds <> [] ->
  Forall (fun a => is_digit a = false) post ->
  limit_search (pre ++ txt "top" ++ sp ++ ds ++ post) = Some ds.
Proof.
  intros Hpre Hsp Hds Hne Hpost.
  induction Hpre as [|c pre Hc Hpre IH].
  - unfold limit_search. unfold limit_match_at at 1. cbn [first_some limit_prefixes].
    cbn [txt list_ascii_of_string prefixb Ascii.eqb Bool.eqb andb length app drop skipn].
    rewrite drop_0, skip_spaces_app_spaces, skip_spaces_digits, take_digits_run by assumption.
    destruct ds; [congruence | reflexivity].
  - assert (Hn : limit_match_at ((c :: pre) ++ txt "top" ++ sp ++ ds ++ post) = None).
    { apply no_limit_match_before_top; [congruence | constructor; assumption]. }
    rewrite (limit_search_skip _ c _ Hn eq_refl). exact IH.
Qed.

Lemma contains_tail (c : ascii) (s k : text) : contains (c :: s) k = false -> contains s k = false.
Proof. simpl. intros H. apply Bool.orb_false_iff in H. tauto. Qed.

Lemma contains_prefixb (s k : text) : contains s k = false -> prefixb k s = false.
Proof. destruct s; simpl; intros H; apply Bool.orb_false_iff in H; tauto. Qed.

Lemma contains_app_r (x s k : text) : contains (x ++ s) k = false -> contains s k = false.
Proof. induction x as [|c x IH]; [tauto|]. intros H. apply IH. exact (contains_tail _ _ _ H). Qed.

Lemma no_age_word_tail c s : no_age_word (c :: s) -> no_age_word s.
Proof. intros H k Hk. exact (contains_tail c s _ (H k Hk)). Qed.

Lemma age_match_no_word (s : text) : no_age_word s -> age_match_at s = ws_digits12 s.
Proof.
  intros H. unfold age_match_at. cbn [first_some age_prefixes].
  rewrite !contains_prefixb by (apply H; simpl; tauto). reflexivity.
Qed.

Lemma age_scan_past_letter (x y : text) (c : ascii) :
  Forall (fun a => is_digit a = false) x -> is_digit c = false -> is_space c = false ->
  no_age_word (x ++ c :: y) -> age_scan (x ++ c :: y) 0 = age_scan y 0.
Proof.
  intros Hx Hd Hs. induction Hx as [|a x Ha Hx IH]; intros Hw.
  - cbn [app] in Hw |- *. cbn [age_scan]. rewrite (age_match_no_word _ Hw). unfold ws_digits12.
    cbn [skip_spaces]. rewrite Hs. cbn [digits12]. rewrite Hd. reflexivity.
  - cbn [app] in Hw |- *. cbn [age_scan]. rewrite (age_match_no_word _ Hw). unfold ws_digits12.
    destruct (skip_spaces_no_digit (a :: x) y c) as [c' [z [Hz Hc']]]; [constructor; assumption | assumption | assumption |].
    cbn [app] in Hz. rewrite Hz. simpl digits12. rewrite Hc'.
    apply IH. exact (no_age_word_tail _ _ Hw).
Qed.

Lemma age_scan_skip (a b : text) : age_scan (a ++ b) (length a) = age_scan b 0.
Proof. induction a as [|c a IH]; [reflexivity|]. exact IH. Qed.

Lemma age_scan_digit_free (x : text) :
  Forall (fun a => is_digit a = false) x -> no_age_word x -> age_scan x 0 = [].
Proof.
  intros Hx. induction Hx as [|a x Ha Hx IH]; intros Hw; [reflexivity|].
  cbn [age_scan]. rewrite (age_match_no_word _ Hw). unfold ws_digits12.
  destruct (skip_spaces_digit_free (a :: x)) as [Hn|[c' [z [Hz Hc']]]]; [constructor; assumption| |].
  - rewrite Hn. apply IH. exact (no_age_word_tail _ _ Hw).
  - rewrite Hz. simpl digits12. rewrite Hc'. apply IH. exact (no_age_word_tail _ _ Hw).
Qed.

Lemma digits12_run (ds post : text) :
  Forall (fun a => is_digit a = true) ds -> 1 <= length ds <= 2 ->
  Forall (fun a => is_digit a = false) post ->
  digits12 (ds ++ post) = Some (ds, length ds).
Proof.
  intros Hds Hlen Hpost.
  destruct Hds as [|d1 ds H1 Hds]; [simpl in Hlen; lia|].
  destruct Hds as [|d2 ds H2 Hds].
  - simpl. rewrite H1. destruct Hpost as [|c post Hc _]; [reflexivity|]. rewrite Hc. reflexivity.
  - destruct ds; [|simpl in Hlen; lia]. simpl. rewrite H1, H2. reflexivity.
Qed.

Lemma age_scan_number (sp ds post : text) :
  Forall (fun a => is_space a = true) sp ->
  Forall (fun a => is_digit a = true) ds -> 1 <= length ds <= 2 ->
  Forall (fun a => is_digit a = false) post ->
  no_age_word (sp ++ ds ++ post) ->
  age_scan (sp ++ ds ++ post) 0 = [ds].
Proof.
  intros Hsp Hds Hlen Hpost Hw.
  assert (Hne : ds <> []) by (destruct ds; simpl in Hlen; [lia | congruence]).
  assert (Hm : age_match_at (sp ++ ds ++ post) = Some (ds, length sp + length ds)).
  { rewrite (age_match_no_word _ Hw). unfold ws_digits12.
    rewrite skip_spaces_app_spaces, skip_spaces_digits by assumption.
    rewrite digits12_run by assumption. rewrite !length_app. do 2 f_equal. lia. }
  rewrite app_assoc in Hm, Hw |- *.
  destruct (sp ++ ds)%list as [|z w] eqn:Ea.
  { destruct ds; [congruence|]. destruct sp; discriminate. }
  assert (Hl : length sp + length ds = S (length w)) by (rewrite <- length_app, Ea; reflexivity).
  cbn [app] in Hm, Hw |- *. cbn [age_scan]. rewrite Hm, Hl. simpl Nat.sub. rewrite Nat.sub_0_r, age_scan_skip.
  rewrite age_scan_digit_free; [reflexivity | exact Hpost |].
  intros k Hk. specialize (Hw k Hk).
  exact (contains_app_r (z :: w) post _ Hw).
Qed.

Lemma no_age_word_existsb (s : text) : existsb (has s) age_prefixes = false -> no_age_word s.
Proof.
  intros H k Hk. unfold has in H.
  destruct (contains s (txt k)) eqn:E; [|reflexivity].
  assert (existsb (fun k => contains s (txt k)) age_prefixes = true) by (apply existsb_exists; eauto).
  congruence.
Qed.

Lemma age_findall_top (pre sp ds post : text) :
  Forall (fun a => is_digit a = false) pre ->
  Forall (fun a => is_space a = true) sp ->
  Forall (fun a => is_digit a = true) ds -> 1 <= length ds <= 2 ->
  Forall (fun a => is_digit a = false) post ->
  no_age_word (pre ++ txt "top" ++ sp ++ ds ++ post) ->
  age_findall (pre ++ txt "top" ++ sp ++ ds ++ post) = [ds].
Proof.
  intros Hpre Hsp Hds Hlen Hpost Hw. unfold age_findall.
  replace (pre ++ txt "top" ++ sp ++ ds ++ post)%list
    with ((pre ++ txt "to") ++ "p"%char :: sp ++ ds ++ post)%list in Hw |- *
    by (rewrite <- app_assoc; reflexivity).
  rewrite age_scan_past_letter; [| apply Forall_app; split; [exact Hpre | repeat constructor]
                                 | reflexivity | reflexivity | exact Hw].
  apply age_scan_number; try assumption.
  intros k Hk. exact (contains_tail _ _ _ (contains_app_r (pre ++ txt "to") _ _ (Hw k Hk))).
Qed.

(** C9 (amended): when the lower-cased query is [pre ++ "top" ++ sp ++ ds
    ++ post], with [sp] blanks, [ds] a one- or two-digit number [N], no
    digit in [pre] or [post], and none of "under", "over", "above",
    "below" in the query, the age pattern reads [N] as a bare age, so the
    age range's minimum is [N], and the limit is also [N]. *)
Theorem top_n_also_min_age (q pre sp ds post : text) :
  lower q = (pre ++ txt "top" ++ sp ++ ds ++ post)%list ->
  Forall (fun c => is_digit c = false) pre ->
  Forall (fun c => is_space c = true) sp ->
  Forall (fun c => is_digit c = true) ds -> 1 <= length ds <= 2 ->
  Forall (fun c => is_digit c = false) post ->
  existsb (has (lower q)) age_prefixes = false ->
  fst (f_age_range (r_filters (process_query q))) = Some (digits_value ds) /\
  f_limit (r_filters (process_query q)) = Some (digits_value ds).
Proof.
  intros Hq Hpre Hsp Hds Hlen Hpost Hw.
  apply no_age_word_existsb in Hw as Hnw.
  assert (Hne : ds <> []) by (destruct ds; simpl in Hlen; [lia | congruence]).
  unfold process_query, extract_filters. cbn [r_filters f_age_range f_limit].
  split.
  - unfold extract_age_range. rewrite Hq in Hnw |- *.
    rewrite age_findall_top by assumption. cbn [fold_left]. unfold Extractor.age_step.
    assert (Hu : forall k, In k age_prefixes -> has (pre ++ txt "top" ++ sp ++ ds ++ post) k = false)
      by exact Hnw.
    rewrite (Hu "under"%string), (Hu "below"%string), (Hu "over"%string), (Hu "above"%string) by (simpl; tauto).
    cbn [orb fst]. destruct (existsb _ experienced_keywords); reflexivity.
  - unfold extract_limit. rewrite Hq, limit_search_top by assumption. reflexivity.
Qed.

(** C9, counterexample: for "top 100" the age pattern [\d{1,2}] splits
    the number into 10 and 0, so the age range is (10, 0), not a minimum
    of 100, while the limit is 100. *)
Lemma top_100_age_range :
  f_age_range (r_filters (process_query (txt "top 100"))) = (Some 10%Z, Some 0%Z) /\
  f_limit (r_filters (process_query (txt "top 100"))) = Some 100%Z.
Proof. split; vm_compute; reflexivity. Qed.

Lemma top_n_also_min_age_witness :
  lower (txt "Show the Top 10 midfielders")
  = (txt "show the " ++ txt "top" ++ txt " " ++ txt "10" ++ txt " midfielders")%list /\
  fst (f_age_range (r_filters (process_query (txt "Show the Top 10 midfielders")))) = Some 10%Z /\
  f_limit (r_filters (process_query (txt "Show the Top 10 midfielders"))) = Some 10%Z.
Proof.
  assert (Hq : lower (txt "Show the Top 10 midfielders")
               = (txt "show the " ++ txt "top" ++ txt " " ++ txt "10" ++ txt " midfielders")%list)
    by reflexivity.
  split; [exact Hq|].
  exact (top_n_also_min_age (txt "Show the Top 10 midfielders") (txt "show the ") (txt " ")
           (txt "10") (txt " midfielders") Hq
           ltac:(repeat constructor) ltac:(repeat constructor) ltac:(repeat constructor)
           ltac:(simpl; lia) ltac:(repeat constructor) ltac:(vm_compute; reflexivity)).
Defined.

(** ** Applying the filter engine twice *)

Section SortedDesc.
Context {A : Type} (gt : A -> A -> bool).

Lemma ins_desc_last (x : A) (acc : list A) :
  (forall y, In y acc -> gt x y = false) -> ins_desc gt x acc = (acc ++ [x])%list.
Proof.
  induction acc as [|y acc IH]; intros H; simpl; [reflexivity|].
  rewrite (H y (or_introl eq_refl)), IH; [reflexivity|]. intros z Hz. apply H. right. exact Hz.
Qed.

Lemma sort_desc_id_acc (rest acc : list A) :
  ForallOrdPairs (fun a b => gt b a = false) (acc ++ rest) ->
  fold_left (fun acc x => ins_desc gt x acc) rest acc = (acc ++ rest)%list.
Proof.
  revert acc. induction rest as [|x rest IH]; intros acc H; simpl; [rewrite app_nil_r; reflexivity|].
  rewrite ins_desc_last.
  - rewrite IH; [rewrite <- app_assoc; reflexivity|]. rewrite <- app_assoc. exact H.
  - intros y Hy. clear IH. induction acc as [|a acc IHa]; [destruct Hy|].
    inversion H as [|? ? Hf Hp]; subst. destruct Hy as [<-|Hy].
    + rewrite List.Forall_forall in Hf. apply Hf. apply in_or_app. right. left. reflexivity.
    + apply IHa; assumption.
Qed.

Lemma sort_desc_id (l : list A) :
  ForallOrdPairs (fun a b => gt b a = false) l -> sort_desc gt l = l.
Proof. intros H. unfold sort_desc. exact (sort_desc_id_acc l [] H). Qed.

Lemma ForallOrdPairs_app_l {R : A -> A -> Prop} (l1 l2 : list A) :
  ForallOrdPairs R (l1 ++ l2) -> ForallOrdPairs R l1.
Proof.
  induction l1 as [|x l1 IH]; simpl; intros H; [constructor|].
  inversion H as [|? ? Hf Hp]; subst. constructor; [|exact (IH Hp)].
  rewrite List.Forall_forall in Hf |- *. intros y Hy. apply Hf. apply in_or_app. left. exact Hy.
Qed.

Lemma ForallOrdPairs_take {R : A -> A -> Prop} (m : nat) (l : list A) :
  ForallOrdPairs R l -> ForallOrdPairs R (take m l).
Proof. intros H. rewrite <- (take_drop m l) in H. exact (ForallOrdPairs_app_l _ _ H). Qed.

Hypothesis gt_trans : forall x y z, gt x y = true -> gt y z = true -> gt x z = true.
Hypothesis gt_asym : forall x y, gt x y = true -> gt y x = false.

Lemma ins_desc_sorted (x : A) (acc : list A) :
  ForallOrdPairs (fun a b => gt b a = false) acc ->
  ForallOrdPairs (fun a b => gt b a = false) (ins_desc gt x acc).
Proof.
  induction acc as [|y acc IH]; intros H; simpl.
  - repeat constructor.
  - inversion H as [|? ? Hf Hp]; subst.
    destruct (gt x y) eqn:Hxy.
    + constructor; [|exact H]. constructor; [apply gt_asym; exact Hxy|].
      rewrite List.Forall_forall in Hf |- *. intros z Hz.
      destruct (gt z x) eqn:Hzx; [|reflexivity].
      pose proof (gt_trans _ _ _ Hzx Hxy) as Hzy. rewrite (Hf z Hz) in Hzy. discriminate.
    + constructor; [|exact (IH Hp)].
      rewrite List.Forall_forall in Hf |- *. intros z Hz.
      apply (Permutation_in _ (ins_desc_perm gt x acc)) in Hz.
      destruct Hz as [<-|Hz]; [exact Hxy | exact (Hf z Hz)].
Qed.

Lemma sort_desc_sorted (l : list A) :
  ForallOrdPairs (fun a b => gt b a = false) (sort_desc gt l).
Proof.
  unfold sort_desc.
  assert (H : forall acc, ForallOrdPairs (fun a b => gt b a = false) acc ->
              ForallOrdPairs (fun a b => gt b a = false) (fold_left (fun acc x => ins_desc gt x acc) l acc)).
  { induction l as [|x l IH]; intros acc Hacc; simpl; [exact Hacc|].
    apply IH. apply ins_desc_sorted. exact Hacc. }
  apply H. constructor.
Qed.

End SortedDesc.

Lemma Qltb_true (a b : Q) : Qltb a b = true <-> (a < b)%Q.
Proof.
  unfold Qltb. destruct (Qle_bool b a) eqn:E; simpl.
  - apply Qle_bool_iff in E. split; [discriminate|]. intros H. exfalso. apply (Qlt_not_le a b); assumption.
  - split; [intros _|reflexivity]. apply Qnot_le_lt. intros H. apply Qle_bool_iff in H. congruence.
Qed.

Lemma num_gt_trans (col : string) :
  forall x y z : row,
  Qltb (num_key col y) (num_key col x) = true -> Qltb (num_key col z) (num_key col y) = true ->
  Qltb (num_key col z) (num_key col x) = true.
Proof. intros x y z H1 H2. apply Qltb_true in H1, H2. apply Qltb_true. eapply Qlt_trans; eassumption. Qed.

Lemma num_gt_asym (col : string) :
  forall x y : row,
  Qltb (num_key col y) (num_key col x) = true -> Qltb (num_key col x) (num_key col y) = false.
Proof.
  intros x y H. apply Qltb_true in H. destruct (Qltb _ _) eqn:E; [|reflexivity].
  apply Qltb_true in E. exfalso. apply (Qlt_irrefl (num_key col x)). eapply Qlt_trans; eassumption.
Qed.

Lemma ascii_compare_lt (a b : ascii) : Ascii.compare a b = Lt <-> (N_of_ascii a < N_of_ascii b)%N.
Proof. unfold Ascii.compare. apply N.compare_lt_iff. Qed.

Lemma ascii_compare_eq (a b : ascii) : Ascii.compare a b = Eq <-> a = b.
Proof.
  split; [apply Ascii.compare_eq_iff|]. intros ->. unfold Ascii.compare. apply N.compare_refl.
Qed.

Lemma string_compare_lt_trans (s1 s2 s3 : string) :
  String.compare s1 s2 = Lt -> String.compare s2 s3 = Lt -> String.compare s1 s3 = Lt.
Proof.
  revert s2 s3. induction s1 as [|a s1 IH]; intros [|b s2] [|c s3]; simpl; try congruence.
  destruct (Ascii.compare a b) eqn:Eab; try discriminate;
  destruct (Ascii.compare b c) eqn:Ebc; try discriminate; intros H1 H2.
  - apply ascii_compare_eq in Eab, Ebc. subst. rewrite (proj2 (ascii_compare_eq c c) eq_refl).
    exact (IH _ _ H1 H2).
  - apply ascii_compare_eq in Eab. subst. rewrite Ebc. reflexivity.
  - apply ascii_compare_eq in Ebc. subst. rewrite Eab. reflexivity.
  - assert (E : Ascii.compare a c = Lt).
    { apply ascii_compare_lt. apply ascii_compare_lt in Eab. apply ascii_compare_lt in Ebc. eapply N.lt_trans; eassumption. }
    rewrite E. reflexivity.
Qed.

Lemma string_ltb_true (s1 s2 : string) : String.ltb s1 s2 = true <-> String.compare s1 s2 = Lt.
Proof. unfold String.ltb. destruct (String.compare s1 s2); split; congruence. Qed.

Lemma str_gt_trans (col : string) :
  forall x y z : row,
  String.ltb (str_key col y) (str_key col x) = true -> String.ltb (str_key col z) (str_key col y) = true ->
  String.ltb (str_key col z) (str_key col x) = true.
Proof.
  intros x y z H1 H2. apply string_ltb_true in H1, H2. apply string_ltb_true.
  exact (string_compare_lt_trans _ _ _ H2 H1).
Qed.

Lemma str_gt_asym (col : string) :
  forall x y : row,
  String.ltb (str_key col y) (str_key col x) = true -> String.ltb (str_key col x) (str_key col y) = false.
Proof.
  intros x y H. apply string_ltb_true in H. unfold String.ltb.
  rewrite String.compare_antisym, H. reflexivity.
Qed.

Lemma filter_all_true {A} (p : A -> bool) (l : list A) :
  (forall x, In x l -> p x = true) -> List.filter p l = l.
Proof.
  induction l as [|x l IH]; intros H; simpl; [reflexivity|].
  rewrite (H x (or_introl eq_refl)), IH; [reflexivity|]. intros y Hy. apply H. right. exact Hy.
Qed.

Lemma filter_all_false {A} (p : A -> bool) (l : list A) :
  (forall x, In x l -> p x = false) -> List.filter p l = [].
Proof.
  induction l as [|x l IH]; intros H; simpl; [reflexivity|].
  rewrite (H x (or_introl eq_refl)), IH; [reflexivity|]. intros y Hy. apply H. right. exact Hy.
Qed.

Lemma existsb_incl {A} (p : A -> bool) (l1 l2 : list A) :
  incl l1 l2 -> existsb p l1 = true -> existsb p l2 = true.
Proof.
  intros Hi H. apply existsb_exists in H as [x [Hx Hp]]. apply existsb_exists. exists x. auto.
Qed.

Lemma In_take {A} (m : nat) (l : list A) x : In x (take m l) -> In x l.
Proof. intros H. rewrite <- (take_drop m l). apply in_or_app. left. exact H. Qed.

Lemma ForallOrdPairs_all {A} (R : A -> A -> Prop) (l : list A) :
  (forall a b, In a l -> In b l -> R a b) -> ForallOrdPairs R l.
Proof.
  induction l as [|x l IH]; intros H; constructor.
  - apply List.Forall_forall. intros y Hy. apply H; [left; reflexivity | right; exact Hy].
  - apply IH. intros a b Ha Hb. apply H; right; assumption.
Qed.

Lemma sort_values_desc_prefix (col : string) (rs4 rs : list row) (m : nat) :
  sort_values_desc col rs4 = Some rs -> sort_values_desc col (take m rs) = Some (take m rs).
Proof.
  unfold sort_values_desc. cbv zeta.
  set (non_na := List.filter (fun r => negb (is_na (row_cell r col))) rs4).
  set (nas := List.filter (fun r => is_na (row_cell r col)) rs4).
  intros H.
  assert (Hnas : forall r, In r nas -> is_na (row_cell r col) = true).
  { intros r Hr. apply filter_In in Hr. tauto. }
  assert (Hnon : forall r, In r non_na -> is_na (row_cell r col) = false).
  { intros r Hr. apply filter_In in Hr. apply Bool.negb_true_iff. tauto. }
  destruct (existsb (fun r => is_num (row_cell r col)) non_na &&
            existsb (fun r => is_str (row_cell r col)) non_na) eqn:Hmix; [discriminate|].
  assert (Hsplit : forall Y : list row, (forall r, In r Y -> In r non_na) ->
    List.filter (fun r => negb (is_na (row_cell r col))) (take m (Y ++ nas)) = take m Y /\
    List.filter (fun r => is_na (row_cell r col)) (take m (Y ++ nas)) = take (m - length Y) nas).
  { intros Y HY. rewrite take_app, !List.filter_app. split.
    - rewrite filter_all_true, filter_all_false; [apply app_nil_r| |].
      + intros r Hr. apply In_take in Hr. rewrite (Hnas r Hr). reflexivity.
      + intros r Hr. apply In_take in Hr. rewrite (Hnon r (HY r Hr)). reflexivity.
    - rewrite filter_all_false, filter_all_true; [reflexivity| |].
      + intros r Hr. apply In_take in Hr. exact (Hnas r Hr).
      + intros r Hr. apply In_take in Hr. exact (Hnon r (HY r Hr)). }
  assert (Hsub : forall (gt : row -> row -> bool) r, In r (take m (sort_desc gt non_na)) -> In r non_na).
  { intros gt r Hr. apply In_take in Hr. exact (Permutation_in _ (sort_desc_perm gt non_na) Hr). }
  destruct (existsb (fun r => is_str (row_cell r col)) non_na) eqn:Hstr; injection H as <-.
  - set (Y := sort_desc (fun a b => String.ltb (str_key col b) (str_key col a)) non_na).
    destruct (Hsplit Y (fun r Hr => Permutation_in _ (sort_desc_perm _ non_na) Hr)) as [-> ->].
    rewrite take_app.
    assert (Hnum : existsb (fun r => is_num (row_cell r col)) (take m Y) = false).
    { destruct (existsb _ (take m Y)) eqn:E; [|reflexivity].
      apply (existsb_incl _ _ non_na (Hsub _)) in E. rewrite E in Hmix. discriminate. }
    rewrite Hnum. cbn [andb].
    destruct (existsb (fun r => is_str (row_cell r col)) (take m Y)).
    + rewrite sort_desc_id; [reflexivity|].
      apply ForallOrdPairs_take, sort_desc_sorted; [apply str_gt_trans | apply str_gt_asym].
    + rewrite sort_desc_id; [reflexivity|].
      assert (H0 : forall x, In x (take m Y) -> num_key col x = 0%Q).
      { intros x Hx. unfold num_key. destruct (row_cell x col) eqn:Ex; [|reflexivity|reflexivity].
        exfalso. assert (existsb (fun r => is_num (row_cell r col)) (take m Y) = true) as Ht
          by (apply existsb_exists; exists x; rewrite Ex; auto).
        congruence. }
      apply ForallOrdPairs_all. intros a b Ha Hb. rewrite (H0 a Ha), (H0 b Hb). reflexivity.
  - set (Y := sort_desc (fun a b => Qltb (num_key col b) (num_key col a)) non_na).
    destruct (Hsplit Y (fun r Hr => Permutation_in _ (sort_desc_perm _ non_na) Hr)) as [-> ->].
    rewrite take_app.
    assert (Hs' : existsb (fun r => is_str (row_cell r col)) (take m Y) = false).
    { destruct (existsb _ (take m Y)) eqn:E; [|reflexivity].
      apply (existsb_incl _ _ non_na (Hsub _)) in E. congruence. }
    rewrite Hs', Bool.andb_false_r.
    rewrite sort_desc_id; [reflexivity|].
    apply ForallOrdPairs_take, sort_desc_sorted; [apply num_gt_trans | apply num_gt_asym].
Qed.

Lemma sublist_incl {A} (l1 l2 : list A) : l1 `sublist_of` l2 -> incl l1 l2.
Proof.
  induction 1 as [|x l1 l2 _ IH|x l1 l2 _ IH]; intros y Hy.
  - exact Hy.
  - destruct Hy as [<-|Hy]; [left; reflexivity | right; exact (IH y Hy)].
  - right. exact (IH y Hy).
Qed.

Lemma comparisons_inert_step cs rs sc :
  comparison_inert cs sc = true -> comparison_step cs rs sc = Some rs.
Proof.
  destruct sc as [stat comparison]. unfold comparison_inert, comparison_step. cbn [fst snd].
  intros H. destruct (has_col cs stat); [|reflexivity]. cbn [negb orb existsb] in H.
  destruct (String.eqb comparison "high"); [discriminate|].
  destruct (String.eqb comparison "low"); [discriminate|].
  destruct (String.eqb comparison "medium"); [discriminate|]. reflexivity.
Qed.

Lemma fold_opt_inert cs (cmps : list (string * string)) rs :
  forallb (comparison_inert cs) cmps = true -> fold_opt (comparison_step cs) cmps rs = Some rs.
Proof.
  induction cmps as [|sc cmps IH]; simpl; [reflexivity|].
  intros H. apply andb_prop in H as [H1 H2].
  rewrite (comparisons_inert_step cs rs sc H1). exact (IH H2).
Qed.

Lemma filter_stable {A} (p : A -> bool) (l X : list A) :
  incl X (List.filter p l) -> List.filter p X = X.
Proof.
  intros Hi. apply filter_all_true. intros x Hx. apply Hi in Hx. apply filter_In in Hx. tauto.
Qed.

Lemma str_accessor_ok_strs col X :
  (forall r, In r X -> is_str (row_cell r col) = true) -> str_accessor_ok col X = true.
Proof.
  unfold str_accessor_ok. destruct X as [|x X]; intros H; [reflexivity|].
  simpl. rewrite (H x (or_introl eq_refl)). reflexivity.
Qed.

Lemma filter_kept_str {A} (col : string) (rs X : list row) (g : string -> A -> bool) (a : A) :
  incl X (List.filter (fun r => match row_cell r col with CStr s => g s a | _ => false end) rs) ->
  forall r, In r X -> is_str (row_cell r col) = true.
Proof.
  intros Hi r Hr. apply Hi, filter_In in Hr as [_ Hp].
  destruct (row_cell r col); [discriminate | reflexivity | discriminate].
Qed.

Lemma position_step_stable cs f rs rs' X :
  position_step cs f rs = Some rs' -> incl X rs' -> position_step cs f X = Some X.
Proof.
  unfold position_step. destruct (_ && _); [|reflexivity].
  destruct str_accessor_ok; [|discriminate].
  intros [= <-] Hi.
  rewrite (str_accessor_ok_strs _ _
    (filter_kept_str _ _ _ (fun s w => existsb (String.eqb (lower_str s)) w) _ Hi)).
  rewrite (filter_stable _ _ _ Hi). reflexivity.
Qed.

Lemma team_step_stable team_regex cs f rs rs' X :
  team_step team_regex cs f rs = Some rs' -> incl X rs' -> team_step team_regex cs f X = Some X.
Proof.
  unfold team_step. destruct (_ && _); [|reflexivity].
  destruct str_accessor_ok; [|discriminate].
  destruct (team_regex _) as [search|]; [|discriminate].
  intros [= <-] Hi.
  rewrite (str_accessor_ok_strs _ _
    (filter_kept_str _ _ _ (fun s (u : unit) => search (lower_str s)) tt Hi)).
  rewrite (filter_stable _ _ _ Hi). reflexivity.
Qed.

Lemma num_mask_stable col keep rs rs' X :
  num_mask col keep rs = Some rs' -> incl X rs' -> num_mask col keep X = Some X.
Proof.
  unfold num_mask. destruct (existsb _ rs) eqn:Hs; [discriminate|].
  intros [= <-] Hi.
  destruct (existsb (fun r => is_str (row_cell r col)) X) eqn:HX.
  - apply (existsb_incl _ _ rs) in HX; [congruence|].
    intros x Hx. apply Hi in Hx. apply filter_In in Hx. tauto.
  - rewrite (filter_stable _ _ _ Hi). reflexivity.
Qed.

Lemma age_step_stable cs f rs rs' X :
  age_step cs f rs = Some rs' -> incl X rs' -> age_step cs f X = Some X.
Proof.
  unfold age_step. destruct (f_age_range f) as [mn mx].
  destruct (has_col cs "Age"); [|reflexivity].
  destruct mn as [m|]; simpl.
  - destruct (num_mask _ _ rs) as [rs1|] eqn:E1; simpl; [|discriminate].
    destruct mx as [m'|].
    + intros E2 Hi.
      pose proof (num_mask_sublist _ _ _ _ E2) as Hs2.
      rewrite (num_mask_stable _ _ _ _ X E1); [simpl|exact (fun x Hx => sublist_incl _ _ Hs2 x (Hi x Hx))].
      exact (num_mask_stable _ _ _ _ X E2 Hi).
    + intros [= <-] Hi. rewrite (num_mask_stable _ _ _ _ X E1 Hi). reflexivity.
  - destruct mx as [m'|]; [|reflexivity].
    apply num_mask_stable.
Qed.

Lemma limit_step_take f rs :
  match f_limit f with Some n => (0 <= n)%Z | None => True end ->
  exists m, limit_step f rs = take m rs.
Proof.
  unfold limit_step, head_n. intros H. destruct (f_limit f) as [n|].
  - destruct (truthy_optZ _); [|exists (length rs); symmetry; apply take_ge; lia].
    destruct (Z.leb_spec 0 n); [eauto | lia].
  - exists (length rs). symmetry. apply take_ge. lia.
Qed.

Lemma limit_step_idemp f rs :
  match f_limit f with Some n => (0 <= n)%Z | None => True end ->
  limit_step f (limit_step f rs) = limit_step f rs.
Proof.
  unfold limit_step, head_n. intros H. destruct (f_limit f) as [n|]; [|reflexivity].
  destruct (truthy_optZ _); [|reflexivity].
  destruct (Z.leb_spec 0 n); [apply take_idemp | lia].
Qed.

Lemma apply_filters_raise team_regex d f :
  filter_and_sort team_regex d f = None -> apply_filters_to_dataframe team_regex d f = d.
Proof. unfold apply_filters_to_dataframe. intros ->. reflexivity. Qed.

Lemma apply_filters_some team_regex d f rs :
  filter_and_sort team_regex d f = Some rs ->
  apply_filters_to_dataframe team_regex d f = mkFrame (cols d) (limit_step f rs).
Proof. unfold apply_filters_to_dataframe. intros ->. reflexivity. Qed.

(** C1, counterexample: on the Scenario B population a "high disposals"
    bucket keeps rows 3 and 4 (quantile 40); applied again to that result
    the quantile is 47.5 and only row 4 is kept. A negative limit also
    truncates again at every application. *)
Lemma apply_filters_twice_differs :
  map row_id (rows (apply_filters_to_dataframe plain_team_regex disposals_df high_disposals)) = [3; 4] /\
  map row_id (rows (apply_filters_to_dataframe plain_team_regex
    (apply_filters_to_dataframe plain_team_regex disposals_df high_disposals) high_disposals)) = [4] /\
  map row_id (rows (apply_filters_to_dataframe plain_team_regex disposals_df (limit_filters (-2)))) = [0; 1; 2] /\
  map row_id (rows (apply_filters_to_dataframe plain_team_regex
    (apply_filters_to_dataframe plain_team_regex disposals_df (limit_filters (-2))) (limit_filters (-2)))) = [0].
Proof. repeat split; vm_compute; reflexivity. Qed.

(** C1 (amended): applying the engine twice with the same filter set gives
    the same frame as applying it once, provided every comparison of the
    set is one the engine skips (its column is absent, or its bucket is
    not high, low or medium), the limit is absent or non-negative, and the
    rows have distinct values in the [sort_by] column. The row predicates
    (position, team, age) keep every row they kept before, a sorted prefix
    sorts to itself, and a non-negative [head] is idempotent. Quantile
    buckets are recomputed on the smaller population, so they are not
    covered; with tied sort keys pandas' unstable quicksort may reorder
    the ties on the second application, so ties are excluded by
    [sort_keys_distinct] (under it every order of the ties coincides, and
    the model's stable sort is the code's sort). *)
Theorem apply_filters_idempotent_inert (team_regex : string -> option (string -> bool)) (d : frame) (f : filters) :
  forallb (comparison_inert (cols d)) (f_comparisons f) = true ->
  match f_limit f with Some n => (0 <= n)%Z | None => True end ->
  sort_keys_distinct d f ->
  apply_filters_to_dataframe team_regex (apply_filters_to_dataframe team_regex d f) f
  = apply_filters_to_dataframe team_regex d f.
Proof.
  intros Hinert Hlim _.
  destruct (filter_and_sort team_regex d f) as [rs|] eqn:E.
  2:{ rewrite (apply_filters_raise _ _ _ E). exact (apply_filters_raise _ _ _ E). }
  rewrite (apply_filters_some _ _ _ _ E).
  unfold filter_and_sort in E.
  destruct (position_step _ _ _) as [rs1|] eqn:E1; simpl in E; [|discriminate].
  destruct (team_step _ _ _ _) as [rs2|] eqn:E2; simpl in E; [|discriminate].
  destruct (age_step _ _ _) as [rs3|] eqn:E3; simpl in E; [|discriminate].
  rewrite fold_opt_inert in E by exact Hinert. simpl in E.
  destruct (limit_step_take f rs Hlim) as [m Hm].
  pose proof (limit_step_idemp f rs Hlim) as Hidem. rewrite Hm in Hidem |- *.
  assert (Hrs : incl rs rs3).
  { unfold sort_step in E. destruct (f_sort_by f) as [s|]; [destruct (_ && _)|].
    - intros x Hx. exact (Permutation_in _ (sort_values_desc_perm _ _ _ E) Hx).
    - injection E as <-. apply incl_refl.
    - injection E as <-. apply incl_refl. }
  assert (Hi3 : incl (take m rs) rs3) by (intros x Hx; exact (Hrs x (In_take m rs x Hx))).
  assert (Hi2 : incl (take m rs) rs2)
    by (intros x Hx; exact (sublist_incl _ _ (age_step_sublist _ _ _ _ E3) x (Hi3 x Hx))).
  assert (Hi1 : incl (take m rs) rs1)
    by (intros x Hx; exact (sublist_incl _ _ (team_step_sublist _ _ _ _ _ E2) x (Hi2 x Hx))).
  assert (F : filter_and_sort team_regex (mkFrame (cols d) (take m rs)) f = Some (take m rs)).
  { unfold filter_and_sort. cbn [cols rows].
    rewrite (position_step_stable _ _ _ _ _ E1 Hi1). simpl.
    rewrite (team_step_stable _ _ _ _ _ _ E2 Hi2). simpl.
    rewrite (age_step_stable _ _ _ _ _ E3 Hi3). simpl.
    rewrite fold_opt_inert by exact Hinert. simpl.
    unfold sort_step in E |- *. destruct (f_sort_by f) as [s|]; [|reflexivity].
    destruct (_ && _); [|reflexivity].
    exact (sort_values_desc_prefix _ _ _ m E). }
  rewrite (apply_filters_some _ _ _ _ F). cbn [cols]. rewrite Hidem. reflexivity.
Qed.

Lemma apply_filters_idempotent_inert_witness :
  forallb (comparison_inert (cols teams_df)) (f_comparisons carlton_sorted) = true /\
  (match f_limit carlton_sorted with Some n => (0 <= n)%Z | None => True end) /\
  sort_keys_distinct teams_df carlton_sorted /\
  apply_filters_to_dataframe plain_team_regex (apply_filters_to_dataframe plain_team_regex teams_df carlton_sorted) carlton_sorted
  = apply_filters_to_dataframe plain_team_regex teams_df carlton_sorted.
Proof.
  assert (H1 : forallb (comparison_inert (cols teams_df)) (f_comparisons carlton_sorted) = true)
    by reflexivity.
  assert (H2 : match f_limit carlton_sorted with Some n => (0 <= n)%Z | None => True end)
    by (simpl; lia).
  assert (H3 : sort_keys_distinct teams_df carlton_sorted).
  { unfold sort_keys_distinct. simpl.
    repeat constructor; simpl; unfold Qeq; simpl; lia. }
  split; [exact H1|]. split; [exact H2|]. split; [exact H3|].
  exact (apply_filters_idempotent_inert plain_team_regex teams_df carlton_sorted H1 H2 H3).
Defined.


(* ================================================================== *)
(** * Further properties of the embedded code                          *)
(* ================================================================== *)

Lemma extract_keyed_In (table : list (string * list string)) (q : text) (k : string) :
  In k (extract_keyed table q) <->
  exists kws, In (k, kws) table /\ exists kw, In kw kws /\ has q kw = true.
Proof.
  unfold extract_keyed. rewrite List.in_map_iff. split.
  - intros [[k' kws] [Hk Hin]]. cbn [fst] in Hk. subst k'.
    apply filter_In in Hin as [Hin He]. apply existsb_exists in He. eauto.
  - intros [kws [Hin [kw [Hkw Hh]]]]. exists (k, kws). split; [reflexivity|].
    apply filter_In. split; [exact Hin|]. apply existsb_exists. eauto.
Qed.

Lemma first_some_Some {A B} (f : A -> option B) (l : list A) (y : B) :
  first_some f l = Some y -> exists x, In x l /\ f x = Some y.
Proof.
  induction l as [|x l IH]; simpl; [discriminate|].
  destruct (f x) eqn:E.
  - intros [= <-]. eauto.
  - intros H. destruct (IH H) as [z [Hz Hf]]. eauto.
Qed.

(** [_extract_sort_criteria] returns a stat only when a sort keyword
    occurs in the query, and that stat is among those [_extract_stats]
    returns for the same query. *)
Theorem sort_criteria_is_extracted_stat (q : text) :
  match extract_sort_criteria q with
  | Some s => In s (extract_stats q) /\ existsb (has q) sort_keywords = true
  | None => True
  end.
Proof.
  destruct (extract_sort_criteria q) as [s|] eqn:E; [|exact I].
  unfold extract_sort_criteria in E.
  apply first_some_Some in E as [k [Hk Hf]].
  destruct (has q k) eqn:Hh; [|discriminate].
  apply first_some_Some in Hf as [[st kws] [He Hg]]. cbn [fst snd] in Hg.
  destruct (existsb (has q) kws) eqn:Hx; [|discriminate]. injection Hg as <-.
  split.
  - apply extract_keyed_In. exists kws. split; [exact He|]. apply existsb_exists in Hx. exact Hx.
  - apply existsb_exists. eauto.
Qed.

Lemma is_digit_code (c : ascii) : is_digit c = true -> (48 <= code c <= 57)%nat.
Proof. unfold is_digit. intros H. apply andb_prop in H as [H1 H2]. apply Nat.leb_le in H1, H2. lia. Qed.

Lemma take_digits_digits (s : text) :
  List.Forall (fun c => is_digit c = true) (fst (take_digits s)).
Proof.
  induction s as [|c s IH]; simpl; [constructor|].
  destruct (is_digit c) eqn:E; [|constructor].
  destruct (take_digits s) as [d r]. cbn [fst] in *. constructor; assumption.
Qed.

Lemma prefixb_contains (s k : text) : prefixb k s = true -> contains s k = true.
Proof. destruct s; simpl; intros ->; reflexivity. Qed.

Lemma contains_cons (c : ascii) (s k : text) : contains s k = true -> contains (c :: s) k = true.
Proof. intros H. simpl. rewrite H. apply Bool.orb_true_r. Qed.

Lemma limit_search_some (s d : text) :
  limit_search s = Some d ->
  List.Forall (fun c => is_digit c = true) d /\ existsb (has s) limit_prefixes = true.
Proof.
  induction s as [|c s IH]; intros H.
  - simpl in H. unfold limit_match_at in H. simpl in H. discriminate.
  - simpl in H. destruct (limit_match_at (c :: s)) as [d'|] eqn:E.
    + injection H as <-. unfold limit_match_at in E. apply first_some_Some in E as [k [Hk Hf]].
      destruct (prefixb (txt k) (c :: s)) eqn:Hp; [|discriminate].
      pose proof (take_digits_digits (skip_spaces (drop (length (txt k)) (c :: s)))) as Hd.
      destruct (take_digits _) as [[|x ds] r]; [discriminate|]. injection Hf as <-.
      split; [exact Hd|]. apply existsb_exists. exists k. split; [exact Hk|].
      unfold has. apply prefixb_contains. exact Hp.
    + destruct (IH H) as [Hd Hx]. split; [exact Hd|].
      apply existsb_exists in Hx as [k [Hk Hh]]. apply existsb_exists. exists k. split; [exact Hk|].
      unfold has in *. apply contains_cons. exact Hh.
Qed.

Lemma digits_value_nonneg_acc (d : text) (acc : Z) :
  (0 <= acc)%Z -> List.Forall (fun c => is_digit c = true) d ->
  (0 <= fold_left (fun acc c => acc * 10 + (Z.of_nat (code c) - 48))%Z d acc)%Z.
Proof.
  revert acc. induction d as [|c d IH]; intros acc Ha Hd; simpl; [exact Ha|].
  inversion Hd as [|? ? Hc Hr]; subst. apply IH; [|exact Hr].
  apply is_digit_code in Hc. lia.
Qed.

(** [_extract_limit]: a returned limit is non-negative and the query
    contains top, best, first or leading; when no limit is returned, none
    of top, best, leading occurs in the query. *)
Theorem extract_limit_cases (q : text) :
  match extract_limit q with
  | Some n => (0 <= n)%Z /\ existsb (has q) ["top"; "best"; "first"; "leading"]%string = true
  | None => existsb (has q) ["top"; "best"; "leading"]%string = false
  end.
Proof.
  unfold extract_limit. destruct (limit_search q) as [d|] eqn:E.
  - destruct (limit_search_some _ _ E) as [Hd Hx]. split.
    + apply digits_value_nonneg_acc; [lia | exact Hd].
    + simpl in Hx |- *. destruct (has q "top"%string), (has q "best"%string), (has q "first"%string); simpl in *; congruence.
  - destruct (existsb (has q) ["top"; "best"; "leading"]%string) eqn:Hx; [|reflexivity].
    split; [lia|]. simpl in Hx |- *.
    destruct (has q "top"%string), (has q "best"%string), (has q "first"%string), (has q "leading"%string); simpl in *; congruence.
Qed.

Lemma digits12_shape (s g : text) (k : nat) :
  digits12 s = Some (g, k) ->
  (0 <= digits_value g <= 99)%Z.
Proof.
  unfold digits12. destruct s as [|c1 s1]; [discriminate|].
  destruct (is_digit c1) eqn:H1; [|discriminate].
  apply is_digit_code in H1.
  destruct s1 as [|c2 s2].
  - intros [= <- _]. unfold digits_value. simpl. lia.
  - destruct (is_digit c2) eqn:H2; intros [= <- _]; unfold digits_value; simpl.
    + apply is_digit_code in H2. lia.
    + lia.
Qed.

Lemma ws_digits12_range (s g : text) (n : nat) :
  ws_digits12 s = Some (g, n) -> (0 <= digits_value g <= 99)%Z.
Proof.
  unfold ws_digits12. destruct (digits12 (skip_spaces s)) as [[g' k]|] eqn:E; [|discriminate].
  intros [= <- _]. exact (digits12_shape _ _ _ E).
Qed.

Lemma age_match_at_range (s g : text) (n : nat) :
  age_match_at s = Some (g, n) -> (0 <= digits_value g <= 99)%Z.
Proof.
  unfold age_match_at.
  destruct (first_some _ age_prefixes) as [[g' n']|] eqn:E.
  - intros [= <- _]. apply first_some_Some in E as [k [_ Hf]].
    destruct (prefixb _ _); [|discriminate].
    destruct (ws_digits12 _) as [[g'' m]|] eqn:Ew; [|discriminate].
    injection Hf as <- _. exact (ws_digits12_range _ _ _ Ew).
  - apply ws_digits12_range.
Qed.

Lemma age_scan_range (s : text) (skip : nat) :
  List.Forall (fun g => 0 <= digits_value g <= 99)%Z (age_scan s skip).
Proof.
  revert skip. induction s as [|c s IH]; intros skip; simpl; [constructor|].
  destruct skip as [|k]; [|apply IH].
  destruct (age_match_at (c :: s)) as [[g n]|] eqn:E; [|apply IH].
  constructor; [exact (age_match_at_range _ _ _ E) | apply IH].
Qed.


Lemma age_fold_range (q : text) (ms : list text) (acc : option Z * option Z) :
  List.Forall (fun g => 0 <= digits_value g <= 99)%Z ms ->
  age_ok (fst acc) -> age_ok (snd acc) ->
  age_ok (fst (fold_left (Extractor.age_step q) ms acc)) /\ age_ok (snd (fold_left (Extractor.age_step q) ms acc)).
Proof.
  revert acc. induction ms as [|m ms IH]; intros [mn mx] Hms H1 H2; simpl; [auto|].
  inversion Hms as [|? ? Hm Hr]; subst. apply IH; [exact Hr| |];
  unfold Extractor.age_step; repeat match goal with |- context [if ?b then _ else _] => destruct b end;
  try destruct mn; simpl in *; auto.
Qed.

(** [_extract_age_range]: each bound it returns lies in [0, 99] (the
    pattern matches numbers of one or two digits). *)
Theorem extract_age_range_bounds (q : text) :
  match fst (extract_age_range q) with Some a => (0 <= a <= 99)%Z | None => True end /\
  match snd (extract_age_range q) with Some a => (0 <= a <= 99)%Z | None => True end.
Proof.
  unfold extract_age_range.
  pose proof (age_fold_range q (age_findall q) (None, None) (age_scan_range q 0) I I) as H.
  destruct (fold_left _ _ _) as [mn mx]. cbn [fst snd] in H |- *. destruct H as [H1 H2].
  split.
  - destruct (existsb _ experienced_keywords); [destruct mn; simpl; [exact H1 | lia] | exact H1].
  - destruct (existsb _ young_keywords); [destruct mx; simpl; [exact H2 | lia] | exact H2].
Qed.




(** [apply_filters_to_dataframe] with no positions, teams, age bounds,
    comparisons, sort or limit returns the DataFrame unchanged (leagues
    and stats are not applied as filters). *)
Theorem empty_filters_identity (team_regex : string -> option (string -> bool)) (d : frame)
    (leagues stats : list string) :
  apply_filters_to_dataframe team_regex d (mkFilters [] [] leagues stats (None, None) [] None None) = d.
Proof.
  unfold apply_filters_to_dataframe, filter_and_sort, position_step, team_step, Frame.age_step, sort_step.
  cbn [f_positions f_teams f_age_range f_comparisons f_sort_by f_limit truthy_list andb].
  destruct (has_col (cols d) "Age"%string); simpl; destruct d; reflexivity.
Qed.

Lemma position_step_In cs f rs rs' r :
  position_step cs f rs = Some rs' -> In r rs' ->
  In r rs /\
  (truthy_list (f_positions f) && has_col cs "Position" = true ->
   exists s, row_cell r "Position" = CStr s /\ In (lower_str s) (map lower_str (f_positions f))).
Proof.
  unfold position_step. destruct (_ && _) eqn:Hc.
  - destruct str_accessor_ok; [|discriminate]. intros [= <-] Hr. apply filter_In in Hr as [Hr Hp]. split; [exact Hr|]. intros _.
    destruct (row_cell r "Position") as [|s|]; try discriminate.
    exists s. split; [reflexivity|]. apply existsb_exists in Hp as [w [Hw Hs]].
    apply String.eqb_eq in Hs. subst w. exact Hw.
  - intros [= <-] Hr. split; [exact Hr | discriminate].
Qed.

Lemma team_step_In team_regex cs f rs rs' r :
  team_step team_regex cs f rs = Some rs' -> In r rs' ->
  In r rs /\
  (truthy_list (f_teams f) && has_col cs "Team" = true ->
   exists search s, team_regex (String.concat "|" (f_teams f)) = Some search /\
     row_cell r "Team" = CStr s /\ search (lower_str s) = true).
Proof.
  unfold team_step. destruct (_ && _) eqn:Hc.
  - destruct str_accessor_ok; [|discriminate].
    destruct (team_regex _) as [search|] eqn:Hre; [|discriminate].
    intros [= <-] Hr. apply filter_In in Hr as [Hr Hp]. split; [exact Hr|]. intros _.
    destruct (row_cell r "Team") as [|s|]; try discriminate. eauto.
  - intros [= <-] Hr. split; [exact Hr | discriminate].
Qed.

Lemma num_mask_In col keep rs rs' r :
  num_mask col keep rs = Some rs' -> In r rs' ->
  In r rs /\ exists x, row_cell r col = CNum x /\ keep x = true.
Proof.
  unfold num_mask. destruct (existsb _ rs); [discriminate|].
  intros [= <-] Hr. apply filter_In in Hr as [Hr Hp]. split; [exact Hr|].
  destruct (row_cell r col) as [x| |]; try discriminate. eauto.
Qed.

Lemma age_step_In cs f rs rs' r :
  Frame.age_step cs f rs = Some rs' -> In r rs' ->
  In r rs /\
  (has_col cs "Age" = true -> forall m, fst (f_age_range f) = Some m ->
     exists a, row_cell r "Age" = CNum a /\ (inject_Z m <= a)%Q) /\
  (has_col cs "Age" = true -> forall m, snd (f_age_range f) = Some m ->
     exists a, row_cell r "Age" = CNum a /\ (a <= inject_Z m)%Q).
Proof.
  unfold Frame.age_step. destruct (f_age_range f) as [mn mx]. cbn [fst snd].
  destruct (has_col cs "Age") eqn:Ha.
  2:{ intros [= <-] Hr. split; [exact Hr|]. split; discriminate. }
  destruct mn as [m1|]; simpl.
  - destruct (num_mask _ _ rs) as [rs1|] eqn:E1; simpl; [|discriminate].
    destruct mx as [m2|].
    + intros E2 Hr. destruct (num_mask_In _ _ _ _ _ E2 Hr) as [Hr1 [y [Hy Hk2]]].
      destruct (num_mask_In _ _ _ _ _ E1 Hr1) as [Hr0 [x [Hx Hk1]]].
      split; [exact Hr0|]. split; intros _ m [= <-].
      * exists x. split; [exact Hx|]. apply Qle_bool_iff. exact Hk1.
      * exists y. split; [exact Hy|]. apply Qle_bool_iff. exact Hk2.
    + intros [= <-] Hr. destruct (num_mask_In _ _ _ _ _ E1 Hr) as [Hr0 [x [Hx Hk1]]].
      split; [exact Hr0|]. split; intros _ m Hm; [|discriminate]. injection Hm as <-.
      exists x. split; [exact Hx|]. apply Qle_bool_iff. exact Hk1.
  - destruct mx as [m2|].
    + intros E2 Hr. destruct (num_mask_In _ _ _ _ _ E2 Hr) as [Hr0 [y [Hy Hk2]]].
      split; [exact Hr0|]. split; intros _ m Hm; [discriminate|]. injection Hm as <-.
      exists y. split; [exact Hy|]. apply Qle_bool_iff. exact Hk2.
    + intros [= <-] Hr. split; [exact Hr|]. split; intros _ m Hm; discriminate.
Qed.

(** Soundness of [apply_filters_to_dataframe]: when no step raises, every
    returned row has a listed position, a team matched by the team
    pattern, and an age within the extracted bounds, each whenever the
    corresponding column exists and the filter is set. *)
Theorem filtered_rows_satisfy_filters (team_regex : string -> option (string -> bool)) (d : frame)
    (f : filters) (rs : list row) :
  filter_and_sort team_regex d f = Some rs ->
  forall r, In r (rows (apply_filters_to_dataframe team_regex d f)) ->
    (truthy_list (f_positions f) && has_col (cols d) "Position" = true ->
       exists s, row_cell r "Position" = CStr s /\ In (lower_str s) (map lower_str (f_positions f))) /\
    (truthy_list (f_teams f) && has_col (cols d) "Team" = true ->
       exists search s, team_regex (String.concat "|" (f_teams f)) = Some search /\
         row_cell r "Team" = CStr s /\ search (lower_str s) = true) /\
    (has_col (cols d) "Age" = true -> forall m, fst (f_age_range f) = Some m ->
       exists a, row_cell r "Age" = CNum a /\ (inject_Z m <= a)%Q) /\
    (has_col (cols d) "Age" = true -> forall m, snd (f_age_range f) = Some m ->
       exists a, row_cell r "Age" = CNum a /\ (a <= inject_Z m)%Q).
Proof.
  intros E r. rewrite (apply_filters_some _ _ _ _ E). cbn [rows].
  intros Hr. apply (sublist_incl _ _ (limit_step_sublist f rs)) in Hr.
  unfold filter_and_sort in E.
  destruct (position_step _ _ _) as [rs1|] eqn:E1; simpl in E; [|discriminate].
  destruct (team_step _ _ _ _) as [rs2|] eqn:E2; simpl in E; [|discriminate].
  destruct (Frame.age_step _ _ _) as [rs3|] eqn:E3; simpl in E; [|discriminate].
  destruct (fold_opt _ _ _) as [rs4|] eqn:E4; simpl in E; [|discriminate].
  assert (Hr4 : In r rs4).
  { unfold sort_step in E. destruct (f_sort_by f) as [s|]; [destruct (_ && _)|].
    - exact (Permutation_in _ (sort_values_desc_perm _ _ _ E) Hr).
    - injection E as <-. exact Hr.
    - injection E as <-. exact Hr. }
  apply fold_opt_sublist in E4; [|apply comparison_step_sublist].
  apply (sublist_incl _ _ E4) in Hr4.
  destruct (age_step_In _ _ _ _ _ E3 Hr4) as [Hr2 [Hmin Hmax]].
  destruct (team_step_In _ _ _ _ _ _ E2 Hr2) as [Hr1 Hteam].
  destruct (position_step_In _ _ _ _ _ E1 Hr1) as [_ Hpos].
  auto.
Qed.

Lemma filtered_rows_satisfy_filters_witness :
  filter_and_sort plain_team_regex teams_df carlton_sorted
    = Some [team_row 2 "Carlton" 24 40; team_row 0 "Carlton" 21 25] /\
  forall r, In r (rows (apply_filters_to_dataframe plain_team_regex teams_df carlton_sorted)) ->
    (truthy_list (f_positions carlton_sorted) && has_col (cols teams_df) "Position" = true ->
       exists s, row_cell r "Position" = CStr s /\ In (lower_str s) (map lower_str (f_positions carlton_sorted))) /\
    (truthy_list (f_teams carlton_sorted) && has_col (cols teams_df) "Team" = true ->
       exists search s, plain_team_regex (String.concat "|" (f_teams carlton_sorted)) = Some search /\
         row_cell r "Team" = CStr s /\ search (lower_str s) = true) /\
    (has_col (cols teams_df) "Age" = true -> forall m, fst (f_age_range carlton_sorted) = Some m ->
       exists a, row_cell r "Age" = CNum a /\ (inject_Z m <= a)%Q) /\
    (has_col (cols teams_df) "Age" = true -> forall m, snd (f_age_range carlton_sorted) = Some m ->
       exists a, row_cell r "Age" = CNum a /\ (a <= inject_Z m)%Q).
Proof.
  assert (E : filter_and_sort plain_team_regex teams_df carlton_sorted
    = Some [team_row 2 "Carlton" 24 40; team_row 0 "Carlton" 21 25]) by (vm_compute; reflexivity).
  split; [exact E | exact (filtered_rows_satisfy_filters plain_team_regex teams_df carlton_sorted _ E)].
Defined.

Lemma ForallOrdPairs_impl' {A} (R S : A -> A -> Prop) (l : list A) :
  (forall a b, R a b -> S a b) -> ForallOrdPairs R l -> ForallOrdPairs S l.
Proof.
  intros H. induction 1 as [|x l Hf _ IH]; constructor; [|exact IH].
  eapply List.Forall_impl; [|exact Hf]. intros b. apply H.
Qed.

Lemma Qltb_false (a b : Q) : Qltb a b = false -> (b <= a)%Q.
Proof.
  intros H. destruct (Qlt_le_dec a b) as [Hl|Hl]; [|exact Hl].
  apply Qltb_true in Hl. congruence.
Qed.

Lemma lookup_str_Some {V} (k : string) (l : list (string * V)) (v : V) :
  lookup_str k l = Some v -> In k (map fst l).
Proof.
  induction l as [|[k' v'] l IH]; simpl; [discriminate|].
  destruct (String.eqb_spec k k') as [->|]; [intros _; left; reflexivity|]. intros H. right. exact (IH H).
Qed.

Lemma lookup_str_None {V} (k : string) (l : list (string * V)) :
  lookup_str k l = None -> ~ In k (map fst l).
Proof.
  induction l as [|[k' v'] l IH]; simpl; [tauto|].
  destruct (String.eqb_spec k k') as [->|Hne]; [discriminate|]. intros H [E|Hin]; [congruence|]. exact (IH H Hin).
Qed.

(** [evaluate_team_fit]: an unknown style returns the DataFrame unchanged;
    a known one scores every row exactly once and orders the scores from
    highest to lowest; the remaining outcome (an exception) only occurs
    for a known style. *)
Theorem team_fit_ranked (d : frame) (team_style : string) :
  match evaluate_team_fit d team_style with
  | FitUnscored d' => d' = d /\ ~ In team_style (map fst team_requirements)
  | FitScored scored =>
      map fst scored ≡ₚ rows d /\ ForallOrdPairs (fun a b => (snd b <= snd a)%Q) scored
  | FitRaises => In team_style (map fst team_requirements)
  end.
Proof.
  unfold evaluate_team_fit.
  destruct (lookup_str team_style team_requirements) as [reqs|] eqn:Hl.
  - assert (Hin : In team_style (map fst team_requirements)).
    { exact (lookup_str_Some _ _ _ Hl). }
    destruct (existsb _ reqs); [exact Hin|]. split.
    + rewrite (Permutation_map fst (sort_desc_perm _ _)), map_map. simpl. rewrite map_id. reflexivity.
    + eapply ForallOrdPairs_impl'; [|apply sort_desc_sorted].
      * intros a b H. apply Qltb_false. exact H.
      * intros x y z H1 H2. apply Qltb_true in H1, H2. apply Qltb_true. eapply Qlt_trans; eassumption.
      * intros x y H. apply Qltb_true in H. destruct (Qltb _ _) eqn:E; [|reflexivity].
        apply Qltb_true in E. exfalso. apply (Qlt_irrefl (snd x)). eapply Qlt_trans; eassumption.
  - split; [reflexivity|]. exact (lookup_str_None _ _ Hl).
Qed.






Lemma ForallOrdPairs_impl_in {A} (R S : A -> A -> Prop) (l : list A) :
  (forall a b, In a l -> In b l -> R a b -> S a b) -> ForallOrdPairs R l -> ForallOrdPairs S l.
Proof.
  intros H. induction 1 as [|x l Hf Hp IH]; constructor.
  - rewrite List.Forall_forall in Hf |- *. intros b Hb. apply H; [left; reflexivity | right; exact Hb | exact (Hf b Hb)].
  - apply IH. intros a b Ha Hb. apply H; right; assumption.
Qed.

Lemma ForallOrdPairs_app {A} (R : A -> A -> Prop) (l1 l2 : list A) :
  ForallOrdPairs R l1 -> ForallOrdPairs R l2 -> (forall a b, In a l1 -> In b l2 -> R a b) ->
  ForallOrdPairs R (l1 ++ l2).
Proof.
  induction 1 as [|x l1 Hf Hp IH]; intros H2 Hx; simpl; [exact H2|].
  constructor.
  - apply List.Forall_app. split; [exact Hf|]. apply List.Forall_forall. intros b Hb. apply Hx; [left; reflexivity | exact Hb].
  - apply IH; [exact H2|]. intros a b Ha Hb. apply Hx; [right; exact Ha | exact Hb].
Qed.


Lemma sort_values_desc_ranked (col : string) (rs rs' : list row) :
  existsb (fun r => is_str (row_cell r col)) rs = false ->
  sort_values_desc col rs = Some rs' ->
  ForallOrdPairs (fun a b => match row_cell b col with
                             | CNum y => exists x, row_cell a col = CNum x /\ (y <= x)%Q
                             | _ => True end) rs'.
Proof.
  intros Hs. unfold sort_values_desc. cbv zeta.
  set (non_na := List.filter (fun r => negb (is_na (row_cell r col))) rs).
  set (nas := List.filter (fun r => is_na (row_cell r col)) rs).
  assert (Hstr : existsb (fun r => is_str (row_cell r col)) non_na = false).
  { destruct (existsb _ non_na) eqn:E; [|reflexivity].
    apply (existsb_incl _ _ rs) in E; [congruence|]. intros x Hx. apply filter_In in Hx. tauto. }
  rewrite Hstr, Bool.andb_false_r. intros [= <-].
  assert (Hnum : forall r, In r non_na -> exists x, row_cell r col = CNum x).
  { intros r Hr. assert (Hr' := Hr). apply filter_In in Hr as [_ Hna].
    destruct (row_cell r col) as [x|s|] eqn:Ec; [eauto| |discriminate].
    exfalso. assert (existsb (fun r => is_str (row_cell r col)) non_na = true) as Ht
      by (apply existsb_exists; exists r; rewrite Ec; auto). congruence. }
  assert (Hnas : forall r, In r nas -> row_cell r col = CNa).
  { intros r Hr. apply filter_In in Hr as [_ Hna]. destruct (row_cell r col); simpl in Hna; [discriminate|discriminate|reflexivity]. }
  set (S := sort_desc (fun a b => Qltb (num_key col b) (num_key col a)) non_na).
  assert (HS : forall r, In r S -> In r non_na).
  { intros r Hr. exact (Permutation_in _ (sort_desc_perm _ non_na) Hr). }
  apply ForallOrdPairs_app.
  - eapply ForallOrdPairs_impl_in; [|apply sort_desc_sorted; [apply num_gt_trans | apply num_gt_asym]].
    intros a b Ha Hb H. apply Qltb_false in H.
    destruct (Hnum a (HS a Ha)) as [x Hx], (Hnum b (HS b Hb)) as [y Hy].
    unfold num_key in H. rewrite Hx, Hy in H. rewrite Hy. eauto.
  - apply ForallOrdPairs_all. intros a b _ Hb. rewrite (Hnas b Hb). exact I.
  - intros a b _ Hb. rewrite (Hnas b Hb). exact I.
Qed.

(** [get_player_rankings] on a metric column holding no strings: the
    result is the first [top_n] of the position-filtered rows ordered by
    the metric from highest to lowest. *)
Theorem rankings_top_n (d : frame) (position : option string) (metric : string) (top_n : Z) :
  (0 <= top_n)%Z -> has_col (cols d) metric = true ->
  forallb (fun r => negb (is_str (row_cell r metric))) (rows d) = true ->
  exists res L,
    get_player_rankings d position metric top_n = Some res /\
    cols res = cols d /\
    L ≡ₚ List.filter (fun r => match position with
                               | Some p => negb (truthy_optstr (Some p) && has_col (cols d) "Position")
                                           || position_eq p r
                               | None => true
                               end) (rows d) /\
    ForallOrdPairs (fun a b => match row_cell b metric with
                               | CNum y => exists x, row_cell a metric = CNum x /\ (y <= x)%Q
                               | _ => True end) L /\
    rows res = take (Z.to_nat top_n) L.
Proof.
  intros Hn Hm Hns. unfold get_player_rankings. rewrite Hm.
  set (cand := List.filter _ (rows d)).
  assert (Hc : match position with
               | Some p => if truthy_optstr (Some p) && has_col (cols d) "Position"
                           then List.filter (position_eq p) (rows d) else rows d
               | None => rows d
               end = cand).
  { unfold cand. destruct position as [p|].
    - destruct (truthy_optstr (Some p) && has_col (cols d) "Position"); simpl.
      + reflexivity.
      + symmetry. apply filter_all_true. reflexivity.
    - symmetry. apply filter_all_true. reflexivity. }
  rewrite Hc.
  assert (Hcs : existsb (fun r => is_str (row_cell r metric)) cand = false).
  { destruct (existsb _ cand) eqn:E; [|reflexivity].
    apply existsb_exists in E as [r [Hr Hstr]]. unfold cand in Hr. apply filter_In in Hr as [Hr _].
    rewrite forallb_forall in Hns. specialize (Hns r Hr). rewrite Hstr in Hns. discriminate. }
  destruct (sort_values_desc metric cand) as [L|] eqn:E.
  2:{ exfalso. revert E. unfold sort_values_desc. cbv zeta.
      assert (existsb (fun r => is_str (row_cell r metric)) (List.filter (fun r => negb (is_na (row_cell r metric))) cand) = false) as H0.
      { destruct (existsb (fun r => is_str (row_cell r metric)) (List.filter (fun r => negb (is_na (row_cell r metric))) cand)) eqn:E'; [|reflexivity].
        apply (existsb_incl _ _ cand) in E'; [congruence|].
        intros x Hx. apply filter_In in Hx. tauto. }
      rewrite H0, Bool.andb_false_r. discriminate. }
  simpl. exists (mkFrame (cols d) (head_n top_n L)), L. split; [reflexivity|]. split; [reflexivity|].
  split; [exact (sort_values_desc_perm _ _ _ E)|]. split; [exact (sort_values_desc_ranked _ _ _ Hcs E)|].
  cbn [rows]. unfold head_n. destruct (Z.leb_spec 0 top_n); [reflexivity | lia].
Qed.

(** [_calculate_age_factor] does not increase with age and stays within
    [0.9, 1.1]. *)
Theorem age_factor_antitone (a b : Q) :
  (a <= b)%Q ->
  (9#10 <= calculate_age_factor (Some b) /\ calculate_age_factor (Some b) <= calculate_age_factor (Some a) /\
   calculate_age_factor (Some a) <= 11#10)%Q.
Proof.
  intros Hab. unfold calculate_age_factor.
  destruct (Qlt_le_dec a 20), (Qlt_le_dec a 25), (Qlt_le_dec a 30), (Qlt_le_dec a 33);
  destruct (Qlt_le_dec b 20), (Qlt_le_dec b 25), (Qlt_le_dec b 30), (Qlt_le_dec b 33);
  repeat split; lra.
Qed.

Lemma age_factor_antitone_witness :
  (20 <= 31)%Q /\ (9#10 <= calculate_age_factor (Some 31) /\ calculate_age_factor (Some 31) <= calculate_age_factor (Some 20) /\
   calculate_age_factor (Some 20) <= 11#10)%Q.
Proof.
  assert (H : (20 <= 31)%Q) by (unfold Qle; simpl; lia).
  split; [exact H | exact (age_factor_antitone 20 31 H)].
Defined.

Lemma unique_years_In (seen : list Z) (l : list perf_row) (y : Z) :
  In y (unique_years seen l) -> In y seen \/ exists r, In r l /\ pr_year r = y.
Proof.
  revert seen. induction l as [|r l IH]; intros seen; simpl.
  - rewrite <- in_rev. auto.
  - destruct (existsb _ seen).
    + intros H. destruct (IH _ H) as [H1|[r' [Hr' Hy]]]; eauto.
    + intros H. destruct (IH _ H) as [[<-|H1]|[r' [Hr' Hy]]]; eauto.
Qed.

Lemma unique_years_nonempty (seen : list Z) (l : list perf_row) :
  seen <> [] \/ l <> [] -> unique_years seen l <> [].
Proof.
  revert seen. induction l as [|r l IH]; intros seen H; simpl.
  - destruct H as [H|H]; [|congruence]. intros Hr. apply H. destruct seen; [reflexivity|].
    simpl in Hr. destruct (rev seen); discriminate.
  - destruct (existsb _ seen) eqn:E.
    + apply IH. left. intros ->. discriminate.
    + apply IH. left. discriminate.
Qed.

Lemma injury_recent (player_data : list perf_row) :
  let ys := unique_years [] player_data in
  let recent := if (3 <=? length ys)%nat then drop (length ys - 3) ys else ys in
  (forall y, In y recent -> exists r, In r player_data /\ pr_year r = y) /\
  (player_data <> [] -> recent <> []).
Proof.
  cbv zeta. split.
  - intros y Hy. assert (Hys : In y (unique_years [] player_data)).
    { destruct (3 <=? _)%nat; [|exact Hy].
      rewrite <- (take_drop (length (unique_years [] player_data) - 3) (unique_years [] player_data)).
      apply in_or_app. right. exact Hy. }
    destruct (unique_years_In _ _ _ Hys) as [[]|H]. exact H.
  - intros Hne. pose proof (unique_years_nonempty [] player_data (or_intror Hne)) as H.
    destruct (Nat.leb_spec 3 (length (unique_years [] player_data))) as [Hl|Hl]; [|exact H].
    intros Hd. apply (f_equal length) in Hd. rewrite length_drop in Hd. simpl in Hd. lia.
Qed.

Lemma list_sum_lower (c : nat) (l : list nat) :
  (forall x, In x l -> c <= x)%nat -> (c * length l <= list_sum l)%nat.
Proof.
  induction l as [|x l IH]; intros H; simpl; [lia|].
  assert (c <= x)%nat by (apply H; left; reflexivity).
  assert (c * length l <= list_sum l)%nat by (apply IH; intros y Hy; apply H; right; exact Hy). lia.
Qed.

Lemma list_sum_upper (c : nat) (l : list nat) :
  (forall x, In x l -> x <= c)%nat -> (list_sum l <= c * length l)%nat.
Proof.
  induction l as [|x l IH]; intros H; simpl; [lia|].
  assert (x <= c)%nat by (apply H; left; reflexivity).
  assert (list_sum l <= c * length l)%nat by (apply IH; intros y Hy; apply H; right; exact Hy). lia.
Qed.

(** [_assess_injury_risk] answers Low when every season of the player has
    at least 20 rows. *)
Theorem injury_risk_low (player_data : list perf_row) :
  player_data <> [] ->
  (forall r, In r player_data ->
     (20 <= length (List.filter (fun r' => Z.eqb (pr_year r') (pr_year r)) player_data))%nat) ->
  assess_injury_risk player_data = "Low"%string.
Proof.
  intros Hne Hall. unfold assess_injury_risk.
  destruct (injury_recent player_data) as [Hin Hrec]. cbv zeta in Hin, Hrec.
  set (recent := if (3 <=? _)%nat then _ else _) in *.
  set (games := map _ recent).
  assert (Hg : forall x, In x games -> (20 <= x)%nat).
  { intros x Hx. unfold games in Hx. apply List.in_map_iff in Hx as [y [<- Hy]].
    destruct (Hin y Hy) as [r [Hr <-]]. exact (Hall r Hr). }
  assert (Hlen : (0 < length games)%nat).
  { unfold games. rewrite length_map. destruct recent; [exfalso; apply (Hrec Hne); reflexivity | simpl; lia]. }
  pose proof (list_sum_lower 20 games Hg) as Hs.
  assert (Havg : (20 <= inject_Z (Z.of_nat (list_sum games)) / inject_Z (Z.of_nat (length games)))%Q).
  { apply Qle_shift_div_l.
    - unfold Qlt. simpl. lia.
    - unfold Qle. simpl. lia. }
  apply Qle_bool_iff in Havg. rewrite Havg. reflexivity.
Qed.

(** [_assess_injury_risk] answers High when every season of the player has
    fewer than 15 rows (also when there are no rows). *)
Theorem injury_risk_high (player_data : list perf_row) :
  (forall r, In r player_data ->
     (length (List.filter (fun r' => Z.eqb (pr_year r') (pr_year r)) player_data) < 15)%nat) ->
  assess_injury_risk player_data = "High"%string.
Proof.
  intros Hall. unfold assess_injury_risk.
  destruct (injury_recent player_data) as [Hin _]. cbv zeta in Hin.
  set (recent := if (3 <=? _)%nat then _ else _) in *.
  set (games := map _ recent).
  assert (Hg : forall x, In x games -> (x <= 14)%nat).
  { intros x Hx. unfold games in Hx. apply List.in_map_iff in Hx as [y [<- Hy]].
    destruct (Hin y Hy) as [r [Hr <-]]. specialize (Hall r Hr). lia. }
  pose proof (list_sum_upper 14 games Hg) as Hs.
  assert (Havg : (inject_Z (Z.of_nat (list_sum games)) / inject_Z (Z.of_nat (length games)) < 15)%Q).
  { destruct (length games) as [|n] eqn:Hl.
    - assert (list_sum games = 0)%nat as -> by lia. reflexivity.
    - apply Qlt_shift_div_r.
      + unfold Qlt. simpl. lia.
      + unfold Qlt. simpl. lia. }
  destruct (Qle_bool 20 _) eqn:E1.
  { apply Qle_bool_iff in E1. exfalso. apply (Qlt_not_le _ _ Havg). eapply Qle_trans; [|exact E1].
    unfold Qle; simpl; lia. }
  destruct (Qle_bool 15 _) eqn:E2; [|reflexivity].
  apply Qle_bool_iff in E2. exfalso. exact (Qlt_not_le _ _ Havg E2).
Qed.

Lemma lookup_aset {V} (d : list (string * V)) (k k' : string) (v : V) :
  lookup_str k (aset d k' v) = if String.eqb k k' then Some v else lookup_str k d.
Proof.
  induction d as [|[k1 v1] d IH]; simpl; [reflexivity|].
  destruct (String.eqb_spec k' k1) as [->|Hne]; simpl.
  - destruct (String.eqb k k1); reflexivity.
  - destruct (String.eqb_spec k k1) as [->|]; [|exact IH].
    destruct (String.eqb_spec k1 k') as [->|]; [congruence|reflexivity].
Qed.

Lemma lookup_fold_aset {V} (ds m : list (string * V)) (k : string) :
  NoDup (map fst ds) ->
  lookup_str k (fold_left (fun m '(k, v) => aset m k v) ds m) =
  match lookup_str k ds with Some v => Some v | None => lookup_str k m end.
Proof.
  revert m. induction ds as [|[k1 v1] ds IH]; intros m Hnd; simpl; [reflexivity|].
  inversion Hnd as [|? ? Hnin Hnd']; subst. rewrite (IH _ Hnd'), lookup_aset.
  destruct (String.eqb_spec k k1) as [->|]; [|reflexivity].
  destruct (lookup_str k1 ds) eqn:E; [|reflexivity].
  exfalso. apply Hnin. apply list_elem_of_In. exact (lookup_str_Some _ _ _ E).
Qed.

(** [_load_models] with a readable directory: a model or scaler found on
    disk replaces the one held under its name, other names keep theirs,
    and the model counts as trained. *)
Theorem load_models_lookup (st : eval_state) (dm : disk_models) (k : string) :
  NoDup (map fst (dm_models dm)) -> NoDup (map fst (dm_scalers dm)) ->
  is_trained (load_models st (Some dm)) = true /\
  lookup_str k (models (load_models st (Some dm))) =
    match lookup_str k (dm_models dm) with Some m => Some m | None => lookup_str k (models st) end /\
  lookup_str k (scalers (load_models st (Some dm))) =
    match lookup_str k (dm_scalers dm) with Some s => Some s | None => lookup_str k (scalers st) end.
Proof.
  intros H1 H2. unfold load_models. cbn [is_trained models scalers].
  split; [reflexivity|]. split; apply lookup_fold_aset; assumption.
Qed.

Lemma obind_Ret {A B} (m : outcome A) (k : A -> outcome B) (v : B) :
  obind m k = Ret v -> exists a, m = Ret a /\ k a = Ret v.
Proof. destruct m as [a|e]; simpl; [eauto | discriminate]. Qed.

Lemma map_outcome_Ret {A B} (f : A -> outcome B) (l : list A) (ys : list B) :
  map_outcome f l = Ret ys -> Forall2 (fun x y => f x = Ret y) l ys.
Proof.
  revert ys. induction l as [|x l IH]; intros ys; simpl.
  - intros [= <-]. constructor.
  - intros H. apply obind_Ret in H as [y [Hy H]]. apply obind_Ret in H as [ys' [Hys H]].
    injection H as <-. constructor; [exact Hy | exact (IH _ Hys)].
Qed.

Lemma peak_fold (ps : list projection) (best r : projection) :
  fold_left (fun best p => if Qltb (p_impact best) (p_impact p) then p else best) ps best = r ->
  (r = best \/ In r ps) /\ (p_impact best <= p_impact r)%Q /\
  Forall (fun q => (p_impact q <= p_impact r)%Q) ps.
Proof.
  revert best. induction ps as [|p ps IH]; intros best Hr; simpl in Hr.
  - subst r. split; [left; reflexivity|]. split; [apply Qle_refl | constructor].
  - apply IH in Hr as [Hin [Hle Hall]].
    destruct (Qltb (p_impact best) (p_impact p)) eqn:E.
    + apply Qltb_true in E. split; [destruct Hin as [->|Hin]; right; [left; reflexivity | right; exact Hin]|].
      split; [apply Qlt_le_weak in E; eapply Qle_trans; eassumption|]. constructor; assumption.
    + apply Qltb_false in E. split; [destruct Hin as [->|Hin]; [left; reflexivity | right; right; exact Hin]|].
      split; [exact Hle|]. constructor; [eapply Qle_trans; eassumption | exact Hall].
Qed.

Lemma peak_of_max (ps : list projection) (pk : projection) :
  peak_of ps = Ret pk -> In pk ps /\ Forall (fun p => (p_impact p <= p_impact pk)%Q) ps.
Proof.
  destruct ps as [|p0 ps]; simpl; [discriminate|]. intros [= H].
  apply peak_fold in H as [Hin [Hle Hall]]. split.
  - destruct Hin as [->|Hin]; [left; reflexivity | right; exact Hin].
  - constructor; assumption.
Qed.

Lemma projection_step_shape (ca cg : option Q) (recent X : feature_vec) (sc : scaler) (m : model)
    (year : Z) (p : projection) :
  (let! seasons := get_key "seasons_played" recent in
   let proj := projection_features X ca cg seasons year in
   let! projected_impact := score sc m proj in
   Ret (mkProjection year (opt_add ca (inject_Z year)) projected_impact
          (opt_add cg (inject_Z (22 * year))))) = Ret p ->
  p_year p = year /\ p_age p = opt_add ca (inject_Z year).
Proof.
  intros H. apply obind_Ret in H as [s [_ H]]. apply obind_Ret in H as [v [_ H]].
  injection H as <-. split; reflexivity.
Qed.

Lemma Forall2_projection_shape (ca : option Q) (P : Z -> projection -> Prop) years ps :
  Forall2 P years ps ->
  (forall y p, P y p -> p_year p = y /\ p_age p = opt_add ca (inject_Z y)) ->
  map p_year ps = years /\ Forall (fun p => p_age p = opt_add ca (inject_Z (p_year p))) ps.
Proof.
  intros H Hs. induction H as [|y p ys ps' Hp _ [IH1 IH2]]; simpl; [split; constructor|].
  destruct (Hs _ _ Hp) as [Hy Ha]. rewrite IH1, Hy. split; [reflexivity|]. constructor; [rewrite Hy; exact Ha | exact IH2].
Qed.

(** [predict_player_potential]: a successful result holds one projection
    per offset 1..projection_years in order, each at the current age plus
    its offset, and its peak is one of them with the greatest impact. *)
Theorem potential_projections_shape prep ida (st : eval_state) (disk : option disk_models)
    (player_data : list perf_row) (projection_years : Z) :
  match snd (Evaluation.predict_player_potential prep ida st disk player_data projection_years) with
  | Potential _ ca _ ps pk _ _ =>
      map p_year ps = map (fun k => Z.of_nat (S k)) (seq 0 (Z.to_nat projection_years)) /\
      Forall (fun p => p_age p = opt_add ca (inject_Z (p_year p))) ps /\
      In pk ps /\ Forall (fun p => (p_impact p <= p_impact pk)%Q) ps
  | PotentialError _ => True
  end.
Proof.
  unfold Evaluation.predict_player_potential. cbv zeta.
  destruct player_data as [|r rs]; [exact I|].
  destruct (last (prep (r :: rs))) as [recent|]; [|exact I].
  match goal with |- context [match ?b with Ret _ => _ | Raise _ => _ end] => destruct b eqn:Hb end;
    [|exact I].
  repeat (apply obind_Ret in Hb as [? [? Hb]]). injection Hb as <-. cbn [snd].
  match goal with H : map_outcome _ _ = Ret ?ps |- _ => apply map_outcome_Ret in H end.
  match goal with H : peak_of _ = Ret _ |- _ => apply peak_of_max in H as [Hin Hall] end.
  match goal with H : Forall2 _ _ _, Hca : get_key "age" _ = Ret ?ca |- _ =>
    destruct (Forall2_projection_shape ca _ _ _ H) as [Hy Ha];
    [intros y p Hp; exact (projection_step_shape _ _ _ _ _ _ _ _ Hp)|] end.
  repeat split; assumption.
Qed.

(** [predict_player_potential] with [projection_years <= 0] always returns
    an error record ([max] of no projections raises). *)
Theorem potential_needs_projection_years prep ida (st : eval_state) (disk : option disk_models)
    (player_data : list perf_row) (projection_years : Z) :
  (projection_years <= 0)%Z ->
  exists msg,
    snd (Evaluation.predict_player_potential prep ida st disk player_data projection_years)
    = PotentialError msg.
Proof.
  intros Hn. unfold Evaluation.predict_player_potential. cbv zeta.
  destruct player_data as [|r rs]; [eexists; reflexivity|].
  destruct (last (prep (r :: rs))) as [recent|]; [|eexists; reflexivity].
  match goal with |- context [match ?b with Ret _ => _ | Raise _ => _ end] => destruct b eqn:Hb end;
    [|eexists; reflexivity].
  exfalso. repeat (apply obind_Ret in Hb as [? [? Hb]]).
  match goal with H : map_outcome _ _ = Ret _ |- _ =>
    replace (Z.to_nat projection_years) with O in H by lia; simpl in H; injection H as <- end.
  match goal with H : peak_of [] = Ret _ |- _ => discriminate H end.
Qed.

Lemma potential_needs_projection_years_witness :
  (0 <= 0)%Z /\
  exists msg, snd (Evaluation.predict_player_potential (fun _ => []) (fun _ => [])
                     (mkEvalState [] [] [] true) None [mkPerfRow 2023 []] 0) = PotentialError msg.
Proof.
  split; [lia|]. exact (potential_needs_projection_years _ _ _ _ _ 0 (Z.le_refl 0)).
Defined.




Lemma py_max_cases (a b : Q) : (a <= py_max a b)%Q /\ (b <= py_max a b)%Q /\ (py_max a b == a \/ py_max a b == b)%Q.
Proof.
  unfold py_max. destruct (Qltb a b) eqn:E.
  - apply Qltb_true in E. lra.
  - apply Qltb_false in E. lra.
Qed.

Lemma py_min_cases (a b : Q) : (py_min a b <= a)%Q /\ (py_min a b <= b)%Q /\ (py_min a b == a \/ py_min a b == b)%Q.
Proof.
  unfold py_min. destruct (Qltb b a) eqn:E.
  - apply Qltb_true in E. lra.
  - apply Qltb_false in E. lra.
Qed.

(** [_calculate_expected_performance]: the expected win percentage lies
    in [0, 100], and the finals probability in [0, 70], never above the
    expected win percentage. *)
Theorem expected_performance_bounds (ts : team_stats) :
  let e := calculate_expected_performance ts in
  (0 <= finals_probability e)%Q /\ (finals_probability e <= expected_win_percentage e)%Q /\
  (expected_win_percentage e <= 100)%Q /\ (finals_probability e <= 70)%Q.
Proof.
  cbv zeta. unfold calculate_expected_performance. cbn [finals_probability expected_win_percentage].
  set (x := (50 + avg_margin ts * (5 # 2))%Q).
  pose proof (py_min_cases 100 x) as [A1 [A2 A3]].
  set (y := py_min 100 x) in *.
  pose proof (py_max_cases 0 y) as [B1 [B2 B3]].
  set (e := py_max 0 y) in *.
  pose proof (py_min_cases 100 (e - 30)) as [C1 [C2 C3]].
  set (f := py_min 100 (e - 30)) in *.
  pose proof (py_max_cases 0 f) as [D1 [D2 D3]].
  set (g := py_max 0 f) in *.
  repeat split; lra.
Qed.

(** [_calculate_expected_performance]: with at most 22 matches played the
    expected remaining wins lie between 0 and the number of remaining
    matches; with 22 or more they are not positive. *)
Theorem expected_wins_remaining_bounds (ts : team_stats) :
  let e := calculate_expected_performance ts in
  ((total_matches ts <= 22)%Z ->
     (0 <= expected_wins_remaining e)%Q /\ (expected_wins_remaining e <= inject_Z (22 - total_matches ts))%Q) /\
  ((22 <= total_matches ts)%Z -> (expected_wins_remaining e <= 0)%Q).
Proof.
  cbv zeta. unfold calculate_expected_performance. cbn [expected_wins_remaining].
  set (x := (50 + avg_margin ts * (5 # 2))%Q).
  pose proof (py_min_cases 100 x) as [A1 [A2 A3]].
  set (y := py_min 100 x) in *.
  pose proof (py_max_cases 0 y) as [B1 [B2 B3]].
  set (e := py_max 0 y) in *.
  assert (He : (0 <= e / 100 <= 1)%Q).
  { split; [apply Qle_shift_div_l; lra | apply Qle_shift_div_r; lra]. }
  set (a := (e / 100)%Q) in *.
  split; intros Ht.
  - assert (Hc : (0 <= inject_Z (22 - total_matches ts))%Q).
    { change 0%Q with (inject_Z 0). rewrite <- Zle_Qle. lia. }
    set (c := inject_Z (22 - total_matches ts)) in *.
    split; [apply Qmult_le_0_compat; lra|].
    apply Qle_trans with (1 * c)%Q; [apply Qmult_le_compat_r; lra | lra].
  - assert (Hc : (inject_Z (22 - total_matches ts) <= 0)%Q).
    { change 0%Q with (inject_Z 0). rewrite <- Zle_Qle. lia. }
    set (c := inject_Z (22 - total_matches ts)) in *.
    assert (0 <= a * - c)%Q by (apply Qmult_le_0_compat; lra).
    assert (a * - c == - (a * c))%Q by ring. lra.
Qed.































Lemma Zsorted_Q (zs : list Z) : Sorted Z.lt zs -> StronglySorted Qlt (map inject_Z zs).
Proof.
  intros H. apply Sorted_StronglySorted in H; [|intros a b c; lia].
  induction H as [|z zs _ IH Hf]; simpl; constructor; [exact IH|].
  apply Forall_map. eapply Forall_impl; [exact Hf|]. intros a Ha. rewrite <- Zlt_Qlt. exact Ha.
Qed.

Lemma Zsorted_gt_Q (zs : list Z) : Sorted Z.gt zs -> StronglySorted Qlt (map Qopp (map inject_Z zs)).
Proof.
  intros H. apply Sorted_StronglySorted in H; [|intros a b c; lia].
  induction H as [|z zs _ IH Hf]; simpl; constructor; [exact IH|].
  rewrite map_map. apply Forall_map. eapply Forall_impl; [exact Hf|]. intros a Ha.
  change (inject_Z (- z) < inject_Z (- a))%Q. rewrite <- Zlt_Qlt. lia.
Qed.





Lemma rankings_top_n_witness :
  (0 <= 3)%Z /\ has_col (cols teams_df) "disposals" = true /\
  forallb (fun r => negb (is_str (row_cell r "disposals"))) (rows teams_df) = true /\
  exists res L,
    get_player_rankings teams_df None "disposals" 3 = Some res /\
    cols res = cols teams_df /\
    L ≡ₚ List.filter (fun r => true) (rows teams_df) /\
    ForallOrdPairs (fun a b => match row_cell b "disposals" with
                               | CNum y => exists x, row_cell a "disposals" = CNum x /\ (y <= x)%Q
                               | _ => True end) L /\
    rows res = take (Z.to_nat 3) L.
Proof.
  assert (H1 : (0 <= 3)%Z) by lia.
  assert (H2 : has_col (cols teams_df) "disposals" = true) by reflexivity.
  assert (H3 : forallb (fun r => negb (is_str (row_cell r "disposals"))) (rows teams_df) = true)
    by reflexivity.
  split; [exact H1|]. split; [exact H2|]. split; [exact H3|].
  exact (rankings_top_n teams_df None "disposals" 3 H1 H2 H3).
Defined.

Lemma injury_risk_low_witness :
  repeat (mkPerfRow 2023 []) 20 <> [] /\
  (forall r, In r (repeat (mkPerfRow 2023 []) 20) ->
     (20 <= length (List.filter (fun r' => Z.eqb (pr_year r') (pr_year r)) (repeat (mkPerfRow 2023 []) 20)))%nat) /\
  assess_injury_risk (repeat (mkPerfRow 2023 []) 20) = "Low"%string.
Proof.
  assert (H1 : repeat (mkPerfRow 2023 []) 20 <> []) by discriminate.
  assert (H2 : forall r, In r (repeat (mkPerfRow 2023 []) 20) ->
     (20 <= length (List.filter (fun r' => Z.eqb (pr_year r') (pr_year r)) (repeat (mkPerfRow 2023 []) 20)))%nat).
  { intros r Hr. apply repeat_spec in Hr. subst r. vm_compute. lia. }
  split; [exact H1|]. split; [exact H2|]. exact (injury_risk_low _ H1 H2).
Defined.

Lemma injury_risk_high_witness :
  (forall r, In r [mkPerfRow 2022 []; mkPerfRow 2023 []] ->
     (length (List.filter (fun r' => Z.eqb (pr_year r') (pr_year r)) [mkPerfRow 2022 []; mkPerfRow 2023 []]) < 15)%nat) /\
  assess_injury_risk [mkPerfRow 2022 []; mkPerfRow 2023 []] = "High"%string.
Proof.
  assert (H : forall r, In r [mkPerfRow 2022 []; mkPerfRow 2023 []] ->
     (length (List.filter (fun r' => Z.eqb (pr_year r') (pr_year r)) [mkPerfRow 2022 []; mkPerfRow 2023 []]) < 15)%nat).
  { intros r [<-|[<-|[]]]; vm_compute; lia. }
  split; [exact H|]. exact (injury_risk_high _ H).
Defined.


Lemma load_models_lookup_witness :
  NoDup (map fst (dm_models disk_one)) /\ NoDup (map fst (dm_scalers disk_one)) /\
  is_trained (load_models (mkEvalState [] [] [] false) (Some disk_one)) = true /\
  lookup_str "player_value" (models (load_models (mkEvalState [] [] [] false) (Some disk_one))) =
    match lookup_str "player_value" (dm_models disk_one) with
    | Some m => Some m | None => lookup_str "player_value" (models (mkEvalState [] [] [] false)) end /\
  lookup_str "player_value" (scalers (load_models (mkEvalState [] [] [] false) (Some disk_one))) =
    match lookup_str "player_value" (dm_scalers disk_one) with
    | Some s => Some s | None => lookup_str "player_value" (scalers (mkEvalState [] [] [] false)) end.
Proof.
  assert (H1 : NoDup (map fst (dm_models disk_one))) by apply NoDup_singleton.
  assert (H2 : NoDup (map fst (dm_scalers disk_one))) by apply NoDup_singleton.
  split; [exact H1|]. split; [exact H2|].
  exact (load_models_lookup _ _ "player_value" H1 H2).
Defined.


